(** * A shallow embedding of the checkers engine and of its match runner.

    The evaluator ([intelligence_i.hpp]), the search constants
    ([intelligence.hpp]), the engine constants ([engine.hpp]), the move
    record ([move.hpp]), the match runner ([runer.cpp]) and the number
    printer of the crash handler ([signal.cpp]) are translated from the
    sources.  The bitboard primitives, the board, the move
    generator, make/unmake, the iterative-deepening driver and the engine's
    result line live in files that are not part of the source tree at hand;
    they are modelled from the specification and every such definition says
    so. *)

From Stdlib Require Import ZArith List String Ascii Bool Lia DecimalString.
Import ListNotations.

Local Open Scope Z_scope.

(** ** Machine integers *)

(** [int] is a 32-bit two's complement integer; [<climits>] gives its ends. *)
Definition INT_MAX : Z := 2147483647.
Definition INT_MIN : Z := -2147483648.

(** The value an [int] holds after an arithmetic result [z] wrapped around. *)
Definition int_wrap (z : Z) : Z := (z + 2 ^ 31) mod 2 ^ 32 - 2 ^ 31.

Definition int_add (a b : Z) : Z := int_wrap (a + b).
Definition int_sub (a b : Z) : Z := int_wrap (a - b).
Definition int_mul (a b : Z) : Z := int_wrap (a * b).

(** ** Bitboards *)

Module bitboard.

(** Modelled from the spec: [bitboard.hpp] is missing.  A bitboard is a
    32-bit unsigned word, one bit per dark square; bit [i] is the square the
    user calls [i + 1].  Squares are packed row by row, four per row, from
    the side black starts on. *)
Definition t : Type := Z.

Definition MASK32 : Z := 0xFFFFFFFF.

Definition wrap (b : Z) : t := Z.land b MASK32.

Definition band (a b : t) : t := Z.land a b.
Definition bor (a b : t) : t := Z.lor a b.
Definition bxor (a b : t) : t := Z.lxor a b.
(** [~b] on a 32-bit unsigned word. *)
Definition bnot (b : t) : t := Z.lxor (wrap b) MASK32.
(** [a & ~b] *)
Definition bclear (a b : t) : t := band a (bnot b).

Definition is_empty (b : t) : bool := Z.eqb b 0.

(** The bitboard holding square [i] alone (internal numbering, 0..31). *)
Definition square (i : nat) : t := Z.shiftl 1 (Z.of_nat i).

Definition has (b : t) (i : nat) : bool := Z.testbit b (Z.of_nat i).

Fixpoint count_below (n : nat) (b : t) : Z :=
  match n with
  | O => 0
  | S k => count_below k b + (if has b k then 1 else 0)
  end.

(** Modelled from the spec: population count, the number of set bits of
    the 32-bit word. *)
Definition bit_count (b : t) : Z := count_below 32 b.

(** Rows 1, 3, 5, 7 of the board (row index 0, 2, 4, 6) and the others. *)
Definition EVEN_ROWS : t := 0x0F0F0F0F.
Definition ODD_ROWS : t := 0xF0F0F0F0.
(** Squares of the even rows that are not on the right edge, squares of
    the odd rows that are not on the left edge. *)
Definition EVEN_INNER : t := 0x07070707.
Definition ODD_INNER : t := 0xE0E0E0E0.

(** Modelled from the spec: the four one-step diagonal shifts.  Forward is
    towards the higher square numbers.  Rows alternate in offset, so each
    direction has one case per row parity; squares that would leave the
    board are dropped. *)
Definition LF (b : t) : t :=
  wrap (Z.lor (Z.shiftl (Z.land b EVEN_ROWS) 4)
              (Z.shiftl (Z.land b ODD_INNER) 3)).
Definition RF (b : t) : t :=
  wrap (Z.lor (Z.shiftl (Z.land b EVEN_INNER) 5)
              (Z.shiftl (Z.land b ODD_ROWS) 4)).
Definition LB (b : t) : t :=
  wrap (Z.lor (Z.shiftr (Z.land (wrap b) EVEN_ROWS) 4)
              (Z.shiftr (Z.land (wrap b) ODD_INNER) 5)).
Definition RB (b : t) : t :=
  wrap (Z.lor (Z.shiftr (Z.land (wrap b) EVEN_INNER) 3)
              (Z.shiftr (Z.land (wrap b) ODD_ROWS) 4)).

(** Modelled from the spec: the named masks.  Black men crown on the last
    row (squares 29..32), white men on the first (squares 1..4); the edges
    are the two outer rows and the two outer columns. *)
Definition BLACK_KINGS_ROW : t := 0xF0000000.
Definition WHITE_KINGS_ROW : t := 0x0000000F.
Definition EDGES : t := 0xF818181F.
Definition VALID_SQUARES : t := MASK32.

End bitboard.

(** ** Players and moves *)

(** [player.hpp] is missing; the spec records the side to move as one bit. *)
Inductive player : Type := BLACK | WHITE.

Definition opponent (p : player) : player :=
  match p with BLACK => WHITE | WHITE => BLACK end.

(** The private members of class [move] in [move.hpp]. *)
Record move : Type := mk_move {
  _orig : bitboard.t;
  _dest : bitboard.t;
  _capture : bitboard.t;
  _will_capture_a_king : bool;
  _will_crown : bool
}.

Definition get_orig (m : move) : bitboard.t := _orig m.
Definition get_dest (m : move) : bitboard.t := _dest m.
Definition get_capture (m : move) : bitboard.t := _capture m.
Definition will_capture_a_king (m : move) : bool := _will_capture_a_king m.
Definition will_crown (m : move) : bool := _will_crown m.

(** [operator ==] on moves: structural. *)
Definition move_eqb (a b : move) : bool :=
  Z.eqb (_orig a) (_orig b) && Z.eqb (_dest a) (_dest b) &&
  Z.eqb (_capture a) (_capture b) &&
  Bool.eqb (_will_capture_a_king a) (_will_capture_a_king b) &&
  Bool.eqb (_will_crown a) (_will_crown b).

(** ** The board *)

(** Modelled from the spec: [board.hpp] is missing.  Four bitboards (each
    colour's men and kings together, and each colour's kings) and the side to
    move. *)
Record board : Type := mk_board {
  black : bitboard.t;
  white : bitboard.t;
  black_kings : bitboard.t;
  white_kings : bitboard.t;
  side_to_move : player
}.

Import bitboard.

Definition is_black_move (b : board) : bool :=
  match side_to_move b with BLACK => true | WHITE => false end.

Definition get_black_pieces (b : board) : t := black b.
Definition get_white_pieces (b : board) : t := white b.
Definition get_black_kings (b : board) : t := black_kings b.
Definition get_white_kings (b : board) : t := white_kings b.
Definition get_occupied (b : board) : t := bor (black b) (white b).
Definition get_empty (b : board) : t :=
  band (bnot (get_occupied b)) VALID_SQUARES.

(** *** Directions and sides *)

Inductive direction : Type := DIR_LF | DIR_RF | DIR_LB | DIR_RB.

Definition shift (d : direction) (b : t) : t :=
  match d with
  | DIR_LF => LF b
  | DIR_RF => RF b
  | DIR_LB => LB b
  | DIR_RB => RB b
  end.

(** The direction that undoes a step. *)
Definition reverse (d : direction) : direction :=
  match d with
  | DIR_LF => DIR_RB
  | DIR_RF => DIR_LB
  | DIR_LB => DIR_RF
  | DIR_RB => DIR_LF
  end.

Definition pieces_of (p : player) (b : board) : t :=
  match p with BLACK => black b | WHITE => white b end.

Definition kings_of (p : player) (b : board) : t :=
  match p with BLACK => black_kings b | WHITE => white_kings b end.

(** The row on which the men of [p] crown. *)
Definition crowning_row (p : player) : t :=
  match p with BLACK => BLACK_KINGS_ROW | WHITE => WHITE_KINGS_ROW end.

(** Black men go forward, white men come the other way; a king has both. *)
Definition forward_directions (p : player) : list direction :=
  match p with
  | BLACK => [DIR_LF; DIR_RF]
  | WHITE => [DIR_LB; DIR_RB]
  end.

Definition backward_directions (p : player) : list direction :=
  forward_directions (opponent p).

Definition directions (p : player) (king : bool) : list direction :=
  if king then forward_directions p ++ backward_directions p
  else forward_directions p.

Definition union_over (ds : list direction) (f : direction -> t) : t :=
  fold_right (fun d acc => bor (f d) acc) 0 ds.

(** *** Movers and jumpers *)

(** The squares of [pieces] with an empty neighbour in direction [d]: a
    square has an empty neighbour in direction [d] exactly when it is the
    neighbour, in the reverse direction, of an empty square. *)
Definition can_step_in (d : direction) (pieces empty : t) : t :=
  band pieces (shift (reverse d) empty).

(** The squares of [pieces] with an enemy piece next to them in direction [d]
    and an empty square right behind it. *)
Definition can_jump_in (d : direction) (pieces enemy empty : t) : t :=
  band pieces (shift (reverse d) (band enemy (shift (reverse d) empty))).

(** Modelled from the spec: a mover is a piece with an empty square one step
    away, forward for a man and in any of the four directions for a king. *)
Definition get_movers (p : player) (b : board) : t :=
  let e := get_empty b in
  bor (union_over (forward_directions p)
         (fun d => can_step_in d (pieces_of p b) e))
      (union_over (backward_directions p)
         (fun d => can_step_in d (kings_of p b) e)).

Definition get_black_movers (b : board) : t := get_movers BLACK b.
Definition get_white_movers (b : board) : t := get_movers WHITE b.

(** Modelled from the spec: a jumper is a piece with at least one immediate
    jump, forward for a man and in any of the four directions for a king. *)
Definition get_jumpers (p : player) (b : board) : t :=
  let e := get_empty b in
  let enemy := pieces_of (opponent p) b in
  bor (union_over (forward_directions p)
         (fun d => can_jump_in d (pieces_of p b) enemy e))
      (union_over (backward_directions p)
         (fun d => can_jump_in d (kings_of p b) enemy e)).

(** *** The move generator *)

Section jump_expansion.

(** The directions the moving piece may take, and the row that ends its
    sequence: the crowning row for a man, no row for a king. *)
Variable dirs : list direction.
Variable stop_row : t.

(** Modelled from the spec: the maximal jump sequences of the piece that
    now stands on [cur], as pairs of the final square and the capture
    mask.  [enemy] are the enemy pieces not yet jumped, [empty] the squares
    free at this point of the sequence (the jumped squares and the square
    the piece left are free), [captured] the squares jumped so far.  A
    sequence goes on as long as a further jump exists and ends at once on
    [stop_row].  Every jump takes a piece out of [enemy], so [fuel] jumps
    are enough as soon as [fuel] exceeds the number of enemy pieces. *)
Fixpoint jump_paths (fuel : nat) (cur enemy empty captured : t)
  : list (t * t) :=
  match fuel with
  | O => []
  | S fuel' =>
      flat_map
        (fun d =>
           let over := band (shift d cur) enemy in
           let dest := band (shift d over) empty in
           if is_empty dest then []
           else
             let captured' := bor captured over in
             if negb (is_empty (band dest stop_row))
             then [(dest, captured')]
             else
               match jump_paths fuel' dest (bclear enemy over)
                       (bor (bclear empty dest) (bor cur over)) captured'
               with
               | [] => [(dest, captured')]
               | longer => longer
               end)
        dirs
  end.

End jump_expansion.

Definition squares : list nat := seq 0 32.

Definition lands_on_crowning_row (p : player) (dest : t) : bool :=
  negb (is_empty (band dest (crowning_row p))).

(** Modelled from the spec: one move per maximal jump sequence of the piece
    on square [i].  The captured-a-king flag says whether a square of the
    capture mask held an enemy king before the move; will-crown is set when
    a man ends on its crowning row. *)
Definition jumps_from (p : player) (b : board) (i : nat) : list move :=
  let king := has (kings_of p b) i in
  let stop_row := if king then 0 else crowning_row p in
  map (fun path : t * t =>
         let (dest, captured) := path in
         mk_move (square i) dest captured
           (negb (is_empty (band captured (kings_of (opponent p) b))))
           (negb king && lands_on_crowning_row p dest))
      (jump_paths (directions p king) stop_row 32 (square i)
         (pieces_of (opponent p) b) (get_empty b) 0).

(** Modelled from the spec: the one-step moves of the piece on square [i] to
    empty squares, with an empty capture mask. *)
Definition slides_from (p : player) (b : board) (i : nat) : list move :=
  let king := has (kings_of p b) i in
  flat_map
    (fun d =>
       let dest := band (shift d (square i)) (get_empty b) in
       if is_empty dest then []
       else [mk_move (square i) dest 0 false
               (negb king && lands_on_crowning_row p dest)])
    (directions p king).

(** Phase J: the jumps of every jumper. *)
Definition jump_moves (p : player) (b : board) : list move :=
  flat_map
    (fun i => if has (get_jumpers p b) i then jumps_from p b i else [])
    squares.

(** Phase S: the slides of every piece. *)
Definition slide_moves (p : player) (b : board) : list move :=
  flat_map
    (fun i => if has (pieces_of p b) i then slides_from p b i else [])
    squares.

(** Modelled from the spec: the legal moves of the side to move.  Phase S
    runs only when phase J produced nothing. *)
Definition generate (b : board) : list move :=
  let p := side_to_move b in
  match jump_moves p b with
  | [] => slide_moves p b
  | jumps => jumps
  end.

Definition is_jump (m : move) : bool := negb (is_empty (get_capture m)).
Definition is_slide (m : move) : bool := is_empty (get_capture m).

(** Modelled from the spec: the four conditions of a legal immediate jump
    from square [s] over square [e] to square [d]: [s] holds a piece of the
    side to move, [e] an enemy piece, [d] is empty, and the three squares
    follow each other along one diagonal the piece may take. *)
Definition legal_jump (b : board) (s e d : nat) : Prop :=
  let p := side_to_move b in
  (s < 32)%nat /\ (e < 32)%nat /\ (d < 32)%nat /\
  has (pieces_of p b) s = true /\
  has (pieces_of (opponent p) b) e = true /\
  has (get_empty b) d = true /\
  exists dir,
    In dir (directions p (has (kings_of p b) s)) /\
    shift dir (square s) = square e /\
    shift dir (square e) = square d.

(** *** make and unmake *)

Definition with_side (p : player) (own own_kings opp opp_kings : t)
  (next : player) : board :=
  match p with
  | BLACK => mk_board own opp own_kings opp_kings next
  | WHITE => mk_board opp own opp_kings own_kings next
  end.

(** Modelled from the spec: the origin bit leaves the moving colour and the
    destination bit enters it; the capture mask is XORed out of the
    opposing colour and out of the opposing kings (of the kings only the
    bits that are there can be taken out); will-crown sets the destination
    in the mover's kings; a king takes its king bit along.  The side to move
    flips. *)
Definition make (b : board) (m : move) : board :=
  let p := side_to_move b in
  let own := pieces_of p b in
  let own_kings := kings_of p b in
  let opp := pieces_of (opponent p) b in
  let opp_kings := kings_of (opponent p) b in
  let own' := bor (bclear own (get_orig m)) (get_dest m) in
  let opp' := bxor opp (get_capture m) in
  let opp_kings' := bxor opp_kings (band opp_kings (get_capture m)) in
  let crowned :=
    if will_crown m then bor own_kings (get_dest m) else own_kings in
  let own_kings' :=
    if is_empty (band (get_orig m) own_kings) then crowned
    else bor (bclear crowned (get_orig m)) (get_dest m) in
  with_side p own' own_kings' opp' opp_kings' (opponent p).

(** Modelled from the spec: the reverse of [make] for the move [m] that was
    made last.  The captured squares go back to the opposing colour, and to
    the opposing kings when the captured-a-king flag is set; crowning is
    undone when will-crown is set; a king takes its king bit back. *)
Definition unmake (b : board) (m : move) : board :=
  let p := opponent (side_to_move b) in
  let own := pieces_of p b in
  let own_kings := kings_of p b in
  let opp := pieces_of (opponent p) b in
  let opp_kings := kings_of (opponent p) b in
  let own' := bor (bclear own (get_dest m)) (get_orig m) in
  let opp' := bxor opp (get_capture m) in
  let opp_kings' :=
    if will_capture_a_king m then bor opp_kings (get_capture m)
    else opp_kings in
  let own_kings' :=
    if will_crown m then bclear own_kings (get_dest m)
    else if is_empty (band (get_dest m) own_kings) then own_kings
    else bor (bclear own_kings (get_dest m)) (get_orig m) in
  with_side p own' own_kings' opp' opp_kings' p.

(** *** The other reading of make and unmake

    The specification's "XOR the capture mask out of the opposing kings" can
    also be read with the captured-a-king flag as its guard, in [make] as in
    [unmake].  The properties of [make] and [unmake] are checked on this
    reading as well. *)
Definition make_gated (b : board) (m : move) : board :=
  let p := side_to_move b in
  let own := pieces_of p b in
  let own_kings := kings_of p b in
  let opp := pieces_of (opponent p) b in
  let opp_kings := kings_of (opponent p) b in
  let own' := bor (bclear own (get_orig m)) (get_dest m) in
  let opp' := bxor opp (get_capture m) in
  let opp_kings' :=
    if will_capture_a_king m then bxor opp_kings (get_capture m)
    else opp_kings in
  let crowned :=
    if will_crown m then bor own_kings (get_dest m) else own_kings in
  let own_kings' :=
    if is_empty (band (get_orig m) own_kings) then crowned
    else bor (bclear crowned (get_orig m)) (get_dest m) in
  with_side p own' own_kings' opp' opp_kings' (opponent p).

Definition unmake_gated (b : board) (m : move) : board :=
  let p := opponent (side_to_move b) in
  let own := pieces_of p b in
  let own_kings := kings_of p b in
  let opp := pieces_of (opponent p) b in
  let opp_kings := kings_of (opponent p) b in
  let own' := bor (bclear own (get_dest m)) (get_orig m) in
  let opp' := bxor opp (get_capture m) in
  let opp_kings' :=
    if will_capture_a_king m then bxor opp_kings (get_capture m)
    else opp_kings in
  let own_kings' :=
    if will_crown m then bclear own_kings (get_dest m)
    else if is_empty (band (get_dest m) own_kings) then own_kings
    else bor (bclear own_kings (get_dest m)) (get_orig m) in
  with_side p own' own_kings' opp' opp_kings' p.

(** *** Positions with their history *)

(** The position and the moves applied so far, oldest first. *)
Record game : Type := mk_game {
  position : board;
  history : list move
}.

(** Black on squares 1..12, white on squares 21..32, black to move. *)
Definition initial_board : board :=
  mk_board 0x00000FFF 0xFFF00000 0 0 BLACK.

Definition new_game : game := mk_game initial_board [].

(** [make] appends the move to the history. *)
Definition make_move (g : game) (m : move) : game :=
  mk_game (make (position g) m) (history g ++ [m]).

(** [unmake] pops the last move and reverses it; there is nothing to undo
    on an empty history. *)
Definition undo_move (g : game) : option game :=
  match rev (history g) with
  | [] => None
  | m :: earlier => Some (mk_game (unmake (position g) m) (rev earlier))
  end.

(** The positions legal play reaches from the initial one. *)
Inductive reachable : game -> Prop :=
| reachable_new : reachable new_game
| reachable_make : forall g m,
    reachable g -> In m (generate (position g)) ->
    reachable (make_move g m).

(** Plays the moves of [ms] in turn, each of which has to be legal. *)
Fixpoint play (g : game) (ms : list move) : option game :=
  match ms with
  | [] => Some g
  | m :: rest =>
      if existsb (move_eqb m) (generate (position g))
      then play (make_move g m) rest
      else None
  end.

(** Legal play with [apply] in the place of [make]. *)
Inductive reachable_with (apply : board -> move -> board) : board -> Prop :=
| reachable_with_new : reachable_with apply initial_board
| reachable_with_make : forall b m,
    reachable_with apply b -> In m (generate b) ->
    reachable_with apply (apply b m).

Fixpoint play_with (apply : board -> move -> board) (b : board)
  (ms : list move) : option board :=
  match ms with
  | [] => Some b
  | m :: rest =>
      if existsb (move_eqb m) (generate b)
      then play_with apply (apply b m) rest
      else None
  end.

(** The invariants of the data model: 32-bit words, no square with two
    pieces, kings among the pieces of their colour. *)
Definition fits (b : t) : Prop := wrap b = b.

Definition well_formed (b : board) : Prop :=
  fits (black b) /\ fits (white b) /\
  band (black b) (white b) = 0 /\
  band (black_kings b) (black b) = black_kings b /\
  band (white_kings b) (white b) = white_kings b.

(** The captured squares are all kings or all men. *)
Definition uniform_capture (b : board) (m : move) : Prop :=
  let opp_kings := kings_of (opponent (side_to_move b)) b in
  band (get_capture m) opp_kings = 0 \/
  band (get_capture m) opp_kings = get_capture m.

(** *** Auxiliary notions for the properties *)

(** The square one step from square [s] in direction [d] when the step
    stays on the board: read off the shift of the one-square bitboard. *)
Definition neighbour (d : direction) (s : nat) : option nat :=
  find (fun e => Z.eqb (shift d (square s)) (square e)) squares.

(** The board coordinates of square [i]: rows from black's side, columns
    from the left; the dark squares of the even rows are in the odd columns. *)
Definition row_of (i : nat) : Z := Z.of_nat (i / 4).
Definition column_of (i : nat) : Z :=
  2 * Z.of_nat (i mod 4) + (if Nat.even (i / 4) then 1 else 0).

Definition row_step (d : direction) : Z :=
  match d with DIR_LF | DIR_RF => 1 | DIR_LB | DIR_RB => -1 end.
Definition column_step (d : direction) : Z :=
  match d with DIR_LF | DIR_LB => -1 | DIR_RF | DIR_RB => 1 end.

(** One diagonal step on the 8 x 8 board. *)
Definition diagonal_step (d : direction) (s : nat) : option nat :=
  let r := row_of s + row_step d in
  let c := column_of s + column_step d in
  if (0 <=? r) && (r <? 8) && (0 <=? c) && (c <? 8)
  then Some (Z.to_nat (4 * r + c / 2))
  else None.

(** What [make] and [unmake] rely on in a move [m] of the side to move: the
    origin holds a piece of that side, a man or a king, and only a man
    crowns; the destination is a square of the board that is free once the
    piece has left its origin and the captured pieces are gone; the
    captured squares hold enemy pieces; the captured-a-king flag tells
    whether a king is among them. *)
Record legal_shape (b : board) (m : move) : Prop := mk_legal_shape {
  shape_orig_own :
    band (get_orig m) (pieces_of (side_to_move b) b) = get_orig m;
  shape_orig_kind :
    band (get_orig m) (kings_of (side_to_move b) b) = 0 \/
    (band (get_orig m) (kings_of (side_to_move b) b) = get_orig m /\
     will_crown m = false);
  shape_orig_some : get_orig m <> 0;
  shape_dest_fits : fits (get_dest m);
  shape_dest_some : get_dest m <> 0;
  shape_dest_free :
    band (get_dest m)
      (bclear (pieces_of (side_to_move b) b) (get_orig m)) = 0;
  shape_dest_clear :
    band (get_dest m)
      (bclear (pieces_of (opponent (side_to_move b)) b) (get_capture m))
    = 0;
  shape_capture :
    band (get_capture m) (pieces_of (opponent (side_to_move b)) b)
    = get_capture m;
  shape_flag :
    will_capture_a_king m =
    negb (is_empty
            (band (get_capture m)
               (kings_of (opponent (side_to_move b)) b)))
}.

(** Black men on 1 and 11, white men on 15, 22 and 23, black to move: the
    man on 11 can jump the man on 15. *)
Definition capture_board : board :=
  mk_board (bor (square 0) (square 10))
    (bor (square 14) (bor (square 21) (square 22))) 0 0 BLACK.

(** A short game: 9-14 24-19 6-9 22-18 2-6 25-22 11-15, then white jumps
    18x11x2 over two men and crowns, 3-7, and the white king jumps 2x11. *)
Definition opening_line : list move :=
  [ mk_move (square 8) (square 13) 0 false false;
    mk_move (square 23) (square 18) 0 false false;
    mk_move (square 5) (square 8) 0 false false;
    mk_move (square 21) (square 17) 0 false false;
    mk_move (square 1) (square 5) 0 false false;
    mk_move (square 24) (square 21) 0 false false;
    mk_move (square 10) (square 14) 0 false false ].

Definition white_double_jump : move :=
  mk_move (square 17) (square 1) (bor (square 6) (square 14)) false true.

Definition king_line : list move :=
  opening_line ++
  [ white_double_jump;
    mk_move (square 2) (square 6) 0 false false;
    mk_move (square 1) (square 10) (square 6) false false ].

(** Black's answer 8x15x24: it jumps the white king on 11 and the white man
    on 19 in one sequence. *)
Definition mixed_jump : move :=
  mk_move (square 7) (square 23) (bor (square 10) (square 18)) true false.

(** The positions the two lines lead to. *)
Definition after_opening : game := fold_left make_move opening_line new_game.
Definition after_king_line : game := fold_left make_move king_line new_game.

(** The position after the king line with the two white pieces that
    [mixed_jump] takes exchanged: the man on 11 and the king on 19. *)
Definition twin_board : board :=
  let b := position after_king_line in
  mk_board (black b) (white b) (black_kings b) (square 18) (side_to_move b).

(** On the other reading: the position after the king line and black's
    [mixed_jump], and white's answer 28x19 over the piece on 24. *)
Definition after_mixed_jump_gated : board :=
  fold_left make_gated (king_line ++ [mixed_jump]) initial_board.

Definition white_answer : move :=
  mk_move (square 27) (square 18) (square 23) false false.

(** ** The evaluator and the search constants *)

Module intelligence.

(** [intelligence.hpp], the three static constants. *)
Definition TIMEOUT : Z := INT_MIN.
Definition INFINITY : Z := INT_MAX.
Definition WIN : Z := 65535.

(** [intelligence_i.hpp]; every operator is the one on [int]. *)
Definition evaluate_pieces_strength (b : board) : Z :=
  if is_black_move b then
    int_add (int_sub (bit_count (get_black_pieces b))
                     (bit_count (get_white_pieces b)))
            (int_sub (bit_count (get_black_kings b))
                     (bit_count (get_white_kings b)))
  else
    int_add (int_sub (bit_count (get_white_pieces b))
                     (bit_count (get_black_pieces b)))
            (int_sub (bit_count (get_white_kings b))
                     (bit_count (get_black_kings b))).

Definition evaluate_movers (b : board) : Z :=
  if is_black_move b then
    int_sub (bit_count (get_black_movers b))
            (bit_count (get_white_movers b))
  else
    int_sub (bit_count (get_white_movers b))
            (bit_count (get_black_movers b)).

Definition evaluate_kings_row (b : board) : Z :=
  if is_black_move b then
    int_sub (bit_count (band (get_black_pieces b) WHITE_KINGS_ROW))
            (bit_count (band (get_white_pieces b) BLACK_KINGS_ROW))
  else
    int_sub (bit_count (band (get_white_pieces b) BLACK_KINGS_ROW))
            (bit_count (band (get_black_pieces b) WHITE_KINGS_ROW)).

Definition evaluate_edges (b : board) : Z :=
  if is_black_move b then
    int_sub (bit_count (band (get_black_pieces b) EDGES))
            (bit_count (band (get_white_pieces b) EDGES))
  else
    int_sub (bit_count (band (get_white_pieces b) EDGES))
            (bit_count (band (get_black_pieces b) EDGES)).

Definition evaluate (b : board) : Z :=
  int_add
    (int_add
       (int_add (int_mul (evaluate_pieces_strength b) 256)
                (int_mul (evaluate_movers b) 2))
       (int_mul (evaluate_kings_row b) 16))
    (int_mul (evaluate_edges b) 8).

(** *** Iterative deepening *)

(** [show_think]'s arguments: one line of progress. *)
Record progress : Type := mk_progress {
  shown_depth : Z;
  shown_val : Z;
  shown_nodes : Z;
  shown_line : list move
}.

(** The static members of the class, with the lines [show_think] has
    printed so far, oldest first. *)
Record statics : Type := mk_statics {
  _best_moves : list move;
  _reorder : bool;
  _nodes : Z;
  _deadline : Z;
  shown : list progress
}.

(** One run of [alpha_beta_search] from the root, as [think] sees it. *)
Record iteration : Type := mk_iteration {
  it_depth : Z;
  it_val : Z;
  it_line : list move
}.

(** An iteration ran to completion when the search did not give up with
    the [TIMEOUT] sentinel. *)
Definition completed (it : iteration) : bool :=
  negb (Z.eqb (it_val it) TIMEOUT).

Section think.

(** [alpha_beta_search] is declared in [intelligence.hpp] and defined in
    a file that is missing.  It is taken as it is declared: from the
    statics, the board and the depth it gives a value, the line it
    wrote into its [best_moves] argument, and the statics it leaves.
    The wall clock it polls is part of [world]. *)
Variable world : Type.
Variable now : world -> Z.
Variable alpha_beta_search :
  world -> statics -> board -> Z -> Z * list move * statics * world.

(** [set_timeout] *)
Definition set_timeout (w : world) (second : Z) (s : statics)
  : statics :=
  mk_statics (_best_moves s) (_reorder s) (_nodes s)
    (now w + second) (shown s).

(** Modelled from the spec: the iterations from [depth] on, [n] of them
    at most.  An iteration that comes back with [TIMEOUT] is abandoned
    and ends the loop: the best line stays the one of the iteration
    before, whatever the search wrote into its [best_moves] argument.  An
    iteration that completes replaces the best line, arms the reorder
    flag and reports to the progress sink.  The best line of the statics
    is written here and nowhere else.  The result also lists the
    iterations that were run, oldest first. *)
Fixpoint iterate (n : nat) (depth : Z) (b : board) (verbose : bool)
  (w : world) (s : statics) : statics * list iteration * world :=
  match n with
  | O => (s, [], w)
  | S n' =>
      let '(val, best_moves, s1, w1) :=
        alpha_beta_search w s b depth in
      let it := mk_iteration depth val best_moves in
      if Z.eqb val TIMEOUT then
        (mk_statics (_best_moves s) (_reorder s1) (_nodes s1)
           (_deadline s1) (shown s1), [it], w1)
      else
        let s2 :=
          mk_statics best_moves true (_nodes s1) (_deadline s1)
            (if verbose
             then shown s1 ++
                  [mk_progress depth val (_nodes s1) best_moves]
             else shown s1) in
        let '(s3, its, w3) := iterate n' (depth + 1) b verbose w1 s2 in
        (s3, it :: its, w3)
  end.

(** Modelled from the spec: [think].  The search state is set up for
    this call; a side with no legal move gets the empty line; otherwise
    the depths 1 to [depth_limit] are searched in turn and the best line
    of the statics is returned. *)
Definition think (b : board) (depth_limit : Z) (second : Z)
  (verbose : bool) (w : world) (s : statics)
  : list move * statics * list iteration * world :=
  let s0 :=
    set_timeout w second
      (mk_statics [] false 0 (_deadline s) (shown s)) in
  match generate b with
  | [] => ([], s0, [], w)
  | _ :: _ =>
      let '(s1, its, w1) :=
        iterate (Z.to_nat depth_limit) 1 b verbose w s0 in
      (_best_moves s1, s1, its, w1)
  end.

End think.

(** *** The features as the specification words them *)

(** One point per piece and one more per king. *)
Definition strength (p : player) (b : board) : Z :=
  bit_count (pieces_of p b) + bit_count (kings_of p b).

Definition mobility (p : player) (b : board) : Z :=
  bit_count (get_movers p b).

(** The pieces of [p] on the row where the opponent crowns. *)
Definition back_row_guard (p : player) (b : board) : Z :=
  bit_count (band (pieces_of p b) (crowning_row (opponent p))).

Definition edge_presence (p : player) (b : board) : Z :=
  bit_count (band (pieces_of p b) EDGES).

(** A feature of the side to move minus the same feature of the other
    side. *)
Definition advantage (f : player -> board -> Z) (b : board) : Z :=
  f (side_to_move b) b - f (opponent (side_to_move b)) b.

Definition men_of (p : player) (b : board) : t :=
  bclear (pieces_of p b) (kings_of p b).

(** 1 per man, 2 per king. *)
Definition material (p : player) (b : board) : Z :=
  1 * bit_count (men_of p b) + 2 * bit_count (kings_of p b).

Definition kings_among_pieces (b : board) : Prop :=
  band (black_kings b) (black b) = black_kings b /\
  band (white_kings b) (white b) = white_kings b.

(** *** What [think] may answer *)

Definition keep_completed (acc : list move) (it : iteration)
  : list move :=
  if completed it then it_line it else acc.

(** After the iterations [its], oldest first: the line of the last one
    when it ran to completion, the line of the one before it when it did
    not, the empty line when there is no such iteration. *)
Definition answer_of (its : list iteration) : list move :=
  match rev its with
  | [] => []
  | it :: earlier =>
      if completed it then it_line it
      else match earlier with
           | [] => []
           | previous :: _ => it_line previous
           end
  end.

(** The iterations [its] searched the depths [d], [d + 1], ... *)
Definition depths_from (d : Z) (its : list iteration) : Prop :=
  map it_depth its =
  map (fun i => d + Z.of_nat i) (seq 0 (List.length its)).

(** A search for the examples: it completes the depths 1 and 2 and is cut
    short at depth 3, leaving a line it had not finished. *)
Definition sample_search (w : unit) (s : statics) (b : board) (depth : Z)
  : Z * list move * statics * unit :=
  if depth =? 1 then
    (0, [mk_move (square 8) (square 13) 0 false false], s, tt)
  else if depth =? 2 then
    (2, [mk_move (square 9) (square 13) 0 false false;
         mk_move (square 23) (square 18) 0 false false], s, tt)
  else
    (TIMEOUT, [mk_move (square 10) (square 14) 0 false false], s, tt).

(** A board with three black men, a black king, a white man and a white king,
    white to move. *)
Definition sample_material_board : board :=
  mk_board 0x00000107 0x30000000 0x00000100 0x10000000 WHITE.

End intelligence.

(** [engine.hpp] *)
Module engine.
Definition UNLIMITED : Z := 999999.

(** Modelled from the spec: [engine.cpp] is missing, [engine.hpp] only
    declares [result].  Spec 4.6: if a side has no legal moves after a move
    is played, the RESULT line for the opposite side winning is printed.
    [None] when the game goes on. *)
Definition result (g : game) : option string :=
  match generate (position g) with
  | [] =>
      Some (match side_to_move (position g) with
            | BLACK => "RESULT 1-0 {White wins}"
            | WHITE => "RESULT 0-1 {Black wins}"
            end)%string
  | _ :: _ => None
  end.
End engine.

(** ** The match runner, [runer.cpp] *)

Module runer.

Local Open Scope string_scope.
Local Open Scope Z_scope.

Definition nl : string := String "010"%char EmptyString.

(** *** The C library pieces [main] calls *)

Definition LONG_MAX : Z := 9223372036854775807.
Definition LONG_MIN : Z := -9223372036854775808.

Definition isspace (c : ascii) : bool :=
  let n := nat_of_ascii c in
  Nat.eqb n 32 || (Nat.leb 9 n && Nat.leb n 13).

Definition digit_of (c : ascii) : option Z :=
  let n := Z.of_nat (nat_of_ascii c) in
  if (48 <=? n) && (n <=? 57) then Some (n - 48) else None.

Fixpoint skip_space (s : string) : string :=
  match s with
  | String c r => if isspace c then skip_space r else s
  | EmptyString => s
  end.

Fixpoint digits_value (s : string) (acc : Z) : Z :=
  match s with
  | String c r =>
      match digit_of c with
      | Some d => digits_value r (acc * 10 + d)
      | None => acc
      end
  | EmptyString => acc
  end.

(** [strtol(s, NULL, 10)]: leading white space, an optional sign, the
    longest run of decimal digits (none gives 0), saturating at the ends
    of [long]. *)
Definition strtol (s : string) : Z :=
  let s1 := skip_space s in
  let v :=
    match s1 with
    | String "-"%char r => - digits_value r 0
    | String "+"%char r => digits_value r 0
    | _ => digits_value s1 0
    end in
  Z.max LONG_MIN (Z.min LONG_MAX v).

(** [std::string::substr(pos, n)]: the characters from [pos] on, at most
    [n] of them; [None] stands for the [std::out_of_range] it throws when
    [pos] is beyond the end. *)
Definition substr (s : string) (pos n : nat) : option string :=
  if Nat.leb pos (String.length s) then Some (String.substring pos n s)
  else None.

(** [operator <<] on an [int]. *)
Definition show_int (z : Z) : string :=
  DecimalString.NilZero.string_of_int (Z.to_int z).

(** *** Argument parsing, lines 21 to 68 *)

Record options : Type := mk_options {
  opt_black : string;
  opt_white : string;
  opt_depth : Z
}.

Definition default_options : options := mk_options "" "" 1.

Inductive parsed : Type :=
| Args (o : options)
| ArgsExit (code : Z).

(** The body of [while (++i < argc)]; [args] is [argv] from index [i] on.
    A flag that is the last argument leaves its variable untouched; an
    argument that is none of the three flags is skipped. *)
Fixpoint parse_loop (args : list string) (o : options) : parsed :=
  match args with
  | [] => Args o
  | a :: rest =>
      if String.eqb "--black" a then
        match rest with
        | v :: rest' =>
            parse_loop rest' (mk_options v (opt_white o) (opt_depth o))
        | [] => Args o
        end
      else if String.eqb "--white" a then
        match rest with
        | v :: rest' =>
            parse_loop rest' (mk_options (opt_black o) v (opt_depth o))
        | [] => Args o
        end
      else if String.eqb "--depth" a then
        match rest with
        | v :: rest' =>
            let depth := int_wrap (strtol v) in
            if (depth <? 0) || (depth >? 999) then ArgsExit 255
            else parse_loop rest'
                   (mk_options (opt_black o) (opt_white o) depth)
        | [] => Args o
        end
      else parse_loop rest o
  end.

(** [argv] includes the program name at index 0. *)
Definition parse_args (argv : list string) : parsed :=
  match parse_loop (tl argv) default_options with
  | Args o =>
      if (String.eqb (opt_black o) "") || (String.eqb (opt_white o) "")
      then ArgsExit 255
      else Args o
  | ArgsExit c => ArgsExit c
  end.

(** *** The relay loop, lines 70 to 165 *)

Definition moves_limit : Z := 299.

Inductive channel : Type := IO | IO_BLACK | IO_WHITE.

(** What the runner has written so far, oldest first, and its counter. *)
Record state : Type := mk_state {
  moves : Z;
  written : list (channel * string)
}.

Definition put (c : channel) (s : string) (st : state) : state :=
  mk_state (moves st) (written st ++ [(c, s)]).

Inductive result : Type :=
| Running (st : state)
| Exited (code : Z) (st : state).

Definition first_char (s : string) : ascii :=
  match s with String c _ => c | EmptyString => zero end.

(** The [switch] on a non-empty [line_black]. *)
Definition on_line_black (line_black : string) (st : state) : result :=
  let c := first_char line_black in
  if Ascii.eqb c "m" then
    match substr line_black 5 4 with
    | None => Exited 255 st
    | Some move =>
        let st := put IO ("Black move " ++ move ++ nl) st in
        let st := put IO_WHITE (move ++ nl) st in
        let st := mk_state (int_add (moves st) 1) (written st) in
        if moves st >? moves_limit then
          Exited 0 (put IO ("RESULT 1/2-1/2 {Draw}" ++ nl) st)
        else Running st
    end
  else if Ascii.eqb c "R" then
    Exited 0 (put IO (line_black ++ nl) st)
  else if Ascii.eqb c "E" then
    Exited 255 (put IO ("Black " ++ line_black ++ nl) st)
  else if Ascii.eqb c " " then Running st
  else Running (put IO ("Black " ++ line_black ++ nl) st).

(** The [switch] on a non-empty [line_white]; its last two cases print
    [line_black]. *)
Definition on_line_white (line_black line_white : string) (st : state)
  : result :=
  let c := first_char line_white in
  if Ascii.eqb c "m" then
    match substr line_white 5 4 with
    | None => Exited 255 st
    | Some move =>
        let st := put IO ("White move " ++ move ++ nl) st in
        let st := put IO_BLACK (move ++ nl) st in
        let st := mk_state (int_add (moves st) 1) (written st) in
        if moves st >? moves_limit then
          Exited 0 (put IO ("RESULT 1/2-1/2 {Draw}" ++ nl) st)
        else Running st
    end
  else if Ascii.eqb c "R" then
    Exited 0 (put IO (line_white ++ nl) st)
  else if Ascii.eqb c "E" then
    Exited 255 (put IO ("White " ++ line_black ++ nl) st)
  else if Ascii.eqb c " " then Running st
  else Exited 255 (put IO ("White " ++ line_black ++ nl) st).

Definition is_empty_line (s : string) : bool := String.eqb s "".

(** One pass of [for (;;)] once the polling [do ... while] has read a line
    from at least one engine. *)
Definition round (line_black line_white : string) (st : state) : result :=
  let after_black :=
    if is_empty_line line_black then Running st
    else on_line_black line_black st in
  match after_black with
  | Exited c st' => Exited c st'
  | Running st' =>
      if is_empty_line line_white then Running st'
      else on_line_white line_black line_white st'
  end.

(** The loop over what the two pipes deliver: one pair of lines per poll,
    either of them possibly empty.  A poll that reads nothing sleeps and
    polls again.  When the pipes deliver nothing more the runner is still
    running. *)
Fixpoint relay_loop (polls : list (string * string)) (st : state)
  : result :=
  match polls with
  | [] => Running st
  | (line_black, line_white) :: rest =>
      if is_empty_line line_black && is_empty_line line_white
      then relay_loop rest st
      else
        match round line_black line_white st with
        | Exited c st' => Exited c st'
        | Running st' => relay_loop rest st'
        end
  end.

(** The writes of lines 78 to 81. *)
Definition start (o : options) : state :=
  let hello := "st 999" ++ nl ++ "sd " ++ show_int (opt_depth o) ++ nl in
  put IO_BLACK ("go" ++ nl)
    (put IO_WHITE hello (put IO_BLACK hello (mk_state 0 []))).

Definition main (argv : list string) (polls : list (string * string))
  : result :=
  match parse_args argv with
  | ArgsExit c => Exited c (mk_state 0 [])
  | Args o => relay_loop polls (start o)
  end.

(** The move text the runner hands to the other engine for a move line:
    what [substr(5, 4)] leaves of it. *)
Definition forwarded (line : string) : option string := substr line 5 4.

(** *** Auxiliary notions for the properties *)

Definition draw_line : string := "RESULT 1/2-1/2 {Draw}" ++ nl.

Definition to_engine (w : channel * string) : bool :=
  match fst w with IO => false | IO_BLACK | IO_WHITE => true end.

(** The lines sent to the engines, without the three of [start]. *)
Definition relayed (st : state) : Z :=
  Z.of_nat (List.length (filter to_engine (written st))) - 3.

Definition last_written (st : state) : option (channel * string) :=
  last (map Some (written st)) None.

Definition state_of (r : result) : state :=
  match r with Running st => st | Exited _ st => st end.

(** The counter agrees with the lines sent to the engines and has not
    passed the limit. *)
Definition counting (st : state) : Prop :=
  relayed st = moves st /\ 0 <= moves st <= moves_limit.

(** What holds of every result of the loop. *)
Definition capped (r : result) : Prop :=
  match r with
  | Running st => counting st
  | Exited code st =>
      relayed st = moves st /\ 0 <= moves st <= moves_limit + 1 /\
      (moves st > moves_limit ->
       code = 0 /\ last_written st = Some (IO, draw_line))
  end.

End runer.

(** ** What the runner sends, poll by poll *)

Module relay.

Import runer.

Local Open Scope string_scope.
Local Open Scope Z_scope.

Definition channel_eqb (a b : channel) : bool :=
  match a, b with
  | IO, IO | IO_BLACK, IO_BLACK | IO_WHITE, IO_WHITE => true
  | _, _ => false
  end.

(** The texts written to the channel [c], oldest first. *)
Definition sent (c : channel) (st : state) : list string :=
  map snd (filter (fun w => channel_eqb (fst w) c) (written st)).

(** What line 78 writes, and line 79. *)
Definition hello (o : options) : string :=
  "st 999" ++ nl ++ "sd " ++ show_int (opt_depth o) ++ nl.

(** What an engine's line makes the runner send to the other engine. *)
Definition token_of (line : string) : list string :=
  if Ascii.eqb (first_char line) "m" then
    match forwarded line with
    | Some move => [move ++ nl]
    | None => []
    end
  else [].

(** A poll that read nothing from either engine. *)
Definition idle (p : string * string) : bool :=
  is_empty_line (fst p) && is_empty_line (snd p).

(** The lines the engines said, in the order the runner handles them. *)
Definition lines_of (polls : list (string * string)) : list string :=
  filter (fun s => negb (is_empty_line s))
    (flat_map (fun p => [fst p; snd p]) polls).

(** A move line long enough for [substr(5, 4)]. *)
Definition move_line (s : string) : bool :=
  Ascii.eqb (first_char s) "m" && Nat.leb 5 (String.length s).

Definition exit_code (r : result) : option Z :=
  match r with Running _ => None | Exited c _ => Some c end.

(** How the match can end: with 0 after printing a line that starts with
    [R], with 255 otherwise. *)
Definition ends_well (r : result) : Prop :=
  match r with
  | Running _ => True
  | Exited c st =>
      c = 0 /\
      (exists line,
          first_char line = "R"%char /\
          last_written st = Some (IO, line ++ nl)) \/
      c = 255
  end.

(** What a long enough move line does to a runner whose counter is
    [moves st]. *)
Definition after_move (r : result) (st : state) : Prop :=
  match r with
  | Running st' => moves st' = moves st + 1 /\ moves st' <= moves_limit
  | Exited c st' =>
      c = 0 /\ moves st' = moves_limit + 1 /\ moves st = moves_limit /\
      last_written st' = Some (IO, draw_line)
  end.

(** A text [strtol] finds no number in: after the white space comes
    nothing, or a character that is neither a digit nor a sign, or a sign
    with no digit behind it. *)
Definition starts_with_digit (s : string) : bool :=
  match s with
  | String c _ => match digit_of c with Some _ => true | None => false end
  | EmptyString => false
  end.

Definition no_number (v : string) : bool :=
  match skip_space v with
  | EmptyString => true
  | String c r =>
      if Ascii.eqb c "-" || Ascii.eqb c "+" then negb (starts_with_digit r)
      else negb (starts_with_digit (String c r))
  end.

End relay.

(** ** The crash handler's number printer ([signal.cpp]) *)

Module crash.

Local Open Scope string_scope.
Local Open Scope Z_scope.











End crash.



(** * Properties *)

Import intelligence.

(** ** Machine integers and population count *)

Section machine_integers.

Lemma int_wrap_small (z : Z) : INT_MIN <= z <= INT_MAX -> int_wrap z = z.
Proof.
  unfold int_wrap, INT_MIN, INT_MAX. intros H.
  rewrite Z.mod_small; lia.
Qed.

Lemma int_wrap_range (z : Z) : INT_MIN <= int_wrap z <= INT_MAX.
Proof.
  unfold int_wrap, INT_MIN, INT_MAX.
  pose proof (Z.mod_pos_bound (z + 2 ^ 31) (2 ^ 32) ltac:(lia)). lia.
Qed.

End machine_integers.

Section population_count.

Lemma count_below_range (n : nat) (b : t) :
  0 <= count_below n b <= Z.of_nat n.
Proof.
  induction n as [|n IH]; [simpl; lia|].
  cbn [count_below]. destruct (has b n); lia.
Qed.

Lemma bit_count_range (b : t) : 0 <= bit_count b <= 32.
Proof. exact (count_below_range 32 b). Qed.

Lemma has_MASK32 (i : nat) : (i < 32)%nat -> has MASK32 i = true.
Proof.
  intros H. unfold has.
  do 32 (destruct i as [|i]; [reflexivity|]). lia.
Qed.

Lemma has_wrap (b : t) (i : nat) : (i < 32)%nat -> has (wrap b) i = has b i.
Proof.
  intros H. unfold has, wrap. rewrite Z.land_spec.
  fold (has MASK32 i). rewrite has_MASK32 by assumption.
  apply andb_true_r.
Qed.

Lemma has_band (a b : t) (i : nat) : has (band a b) i = has a i && has b i.
Proof. unfold has, band. apply Z.land_spec. Qed.

Lemma has_bor (a b : t) (i : nat) : has (bor a b) i = has a i || has b i.
Proof. unfold has, bor. apply Z.lor_spec. Qed.

Lemma has_bxor (a b : t) (i : nat) :
  has (bxor a b) i = xorb (has a i) (has b i).
Proof. unfold has, bxor. apply Z.lxor_spec. Qed.

Lemma has_bnot (b : t) (i : nat) :
  (i < 32)%nat -> has (bnot b) i = negb (has b i).
Proof.
  intros H. unfold bnot. rewrite has_bxor, has_wrap, has_MASK32 by assumption.
  apply xorb_true_r.
Qed.

Lemma has_bclear (a b : t) (i : nat) :
  (i < 32)%nat -> has (bclear a b) i = has a i && negb (has b i).
Proof.
  intros H. unfold bclear. rewrite has_band, has_bnot by assumption.
  reflexivity.
Qed.

(** The pieces of a colour are its men and its kings. *)
Lemma count_below_split (n : nat) (a k : t) :
  (n <= 32)%nat -> band k a = k ->
  count_below n a = count_below n (bclear a k) + count_below n k.
Proof.
  intros Hn Hsub. induction n as [|n IH]; [reflexivity|].
  cbn [count_below]. rewrite IH by lia.
  rewrite has_bclear by lia.
  assert (Hk : has k n = has k n && has a n)
    by (rewrite <- has_band, Hsub; reflexivity).
  destruct (has a n), (has k n); cbn in *; try discriminate; lia.
Qed.

Lemma bit_count_split (a k : t) :
  band k a = k -> bit_count a = bit_count (bclear a k) + bit_count k.
Proof. apply count_below_split. lia. Qed.

End population_count.

(** ** The evaluator *)

(** Names every population count of the goal and records its range. *)
Ltac count_bounds :=
  repeat match goal with
  | |- context [bit_count ?b] =>
      let H := fresh "Hcount" in
      pose proof (bit_count_range b) as H;
      generalize dependent (bit_count b); intros
  end.

(** No operation of the evaluator leaves the range of [int]. *)
Ltac no_overflow :=
  repeat match goal with
  | |- context [int_wrap ?z] =>
      rewrite (int_wrap_small z) by (unfold INT_MIN, INT_MAX; lia)
  end.

Section evaluator.

Lemma evaluate_pieces_strength_exact (b : board) :
  evaluate_pieces_strength b = advantage strength b.
Proof.
  unfold evaluate_pieces_strength, advantage, strength, is_black_move,
    get_black_pieces, get_white_pieces, get_black_kings, get_white_kings,
    int_add, int_sub.
  destruct (side_to_move b); cbn [opponent pieces_of kings_of];
    count_bounds; no_overflow; lia.
Qed.

Lemma evaluate_movers_exact (b : board) :
  evaluate_movers b = advantage mobility b.
Proof.
  unfold evaluate_movers, advantage, mobility, is_black_move,
    get_black_movers, get_white_movers, int_sub.
  destruct (side_to_move b); cbn [opponent];
    count_bounds; no_overflow; lia.
Qed.

Lemma evaluate_kings_row_exact (b : board) :
  evaluate_kings_row b = advantage back_row_guard b.
Proof.
  unfold evaluate_kings_row, advantage, back_row_guard, is_black_move,
    get_black_pieces, get_white_pieces, int_sub.
  destruct (side_to_move b); cbn [opponent pieces_of crowning_row];
    count_bounds; no_overflow; lia.
Qed.

Lemma evaluate_edges_exact (b : board) :
  evaluate_edges b = advantage edge_presence b.
Proof.
  unfold evaluate_edges, advantage, edge_presence, is_black_move,
    get_black_pieces, get_white_pieces, int_sub.
  destruct (side_to_move b); cbn [opponent pieces_of];
    count_bounds; no_overflow; lia.
Qed.

Lemma advantage_range (f : player -> board -> Z) (n : Z) (b : board) :
  (forall p, 0 <= f p b <= n) -> - n <= advantage f b <= n.
Proof.
  intros H. unfold advantage.
  pose proof (H (side_to_move b)).
  pose proof (H (opponent (side_to_move b))). lia.
Qed.

Lemma strength_range (p : player) (b : board) : 0 <= strength p b <= 64.
Proof. unfold strength. count_bounds. lia. Qed.

Lemma mobility_range (p : player) (b : board) : 0 <= mobility p b <= 64.
Proof. unfold mobility. count_bounds. lia. Qed.

Lemma back_row_guard_range (p : player) (b : board) :
  0 <= back_row_guard p b <= 64.
Proof. unfold back_row_guard. count_bounds. lia. Qed.

Lemma edge_presence_range (p : player) (b : board) :
  0 <= edge_presence p b <= 64.
Proof. unfold edge_presence. count_bounds. lia. Qed.

Lemma weighted_sum_exact (s m k e : Z) :
  - 64 <= s <= 64 -> - 64 <= m <= 64 -> - 64 <= k <= 64 ->
  - 64 <= e <= 64 ->
  int_add
    (int_add (int_add (int_mul s 256) (int_mul m 2)) (int_mul k 16))
    (int_mul e 8)
  = s * 256 + m * 2 + k * 16 + e * 8.
Proof.
  intros Hs Hm Hk He. unfold int_add, int_mul.
  rewrite (int_wrap_small (s * 256)) by (unfold INT_MIN, INT_MAX; lia).
  rewrite (int_wrap_small (m * 2)) by (unfold INT_MIN, INT_MAX; lia).
  rewrite (int_wrap_small (k * 16)) by (unfold INT_MIN, INT_MAX; lia).
  rewrite (int_wrap_small (e * 8)) by (unfold INT_MIN, INT_MAX; lia).
  rewrite (int_wrap_small (s * 256 + m * 2))
    by (unfold INT_MIN, INT_MAX; lia).
  rewrite (int_wrap_small (s * 256 + m * 2 + k * 16))
    by (unfold INT_MIN, INT_MAX; lia).
  apply int_wrap_small. unfold INT_MIN, INT_MAX. lia.
Qed.

Lemma evaluate_exact (b : board) :
  evaluate b =
    advantage strength b * 256 + advantage mobility b * 2 +
    advantage back_row_guard b * 16 + advantage edge_presence b * 8.
Proof.
  unfold evaluate.
  rewrite evaluate_pieces_strength_exact, evaluate_movers_exact,
    evaluate_kings_row_exact, evaluate_edges_exact.
  apply weighted_sum_exact.
  - exact (advantage_range strength 64 b (fun p => strength_range p b)).
  - exact (advantage_range mobility 64 b (fun p => mobility_range p b)).
  - exact (advantage_range back_row_guard 64 b
             (fun p => back_row_guard_range p b)).
  - exact (advantage_range edge_presence 64 b
             (fun p => edge_presence_range p b)).
Qed.

Lemma evaluate_range (b : board) : - 18048 <= evaluate b <= 18048.
Proof.
  rewrite evaluate_exact.
  pose proof (advantage_range strength 64 b (fun p => strength_range p b)).
  pose proof (advantage_range mobility 64 b (fun p => mobility_range p b)).
  pose proof (advantage_range back_row_guard 64 b
                (fun p => back_row_guard_range p b)).
  pose proof (advantage_range edge_presence 64 b
                (fun p => edge_presence_range p b)).
  lia.
Qed.

End evaluator.

Section evaluation_properties.

(** C3: on every board [evaluate] is exactly pieces_strength * 256 +
    movers * 2 + kings_row * 16 + edges * 8 (no operation overflows), and
    each of the four features is the value of the side to move minus the
    value of the other side. *)
Theorem evaluate_is_weighted_sum (b : board) :
  evaluate b =
    evaluate_pieces_strength b * 256 + evaluate_movers b * 2 +
    evaluate_kings_row b * 16 + evaluate_edges b * 8 /\
  evaluate_pieces_strength b = advantage strength b /\
  evaluate_movers b = advantage mobility b /\
  evaluate_kings_row b = advantage back_row_guard b /\
  evaluate_edges b = advantage edge_presence b.
Proof.
  rewrite evaluate_exact.
  rewrite evaluate_pieces_strength_exact, evaluate_movers_exact,
    evaluate_kings_row_exact, evaluate_edges_exact.
  repeat split.
Qed.

(** C4: when each colour's kings are among its pieces, the pieces-strength
    feature counts 1 per man and 2 per king, the side to move minus the
    other side; it is the difference of the piece counts plus the
    difference of the king counts. *)
Theorem pieces_strength_counts_material (b : board) :
  kings_among_pieces b ->
  evaluate_pieces_strength b =
    material (side_to_move b) b - material (opponent (side_to_move b)) b
  /\ evaluate_pieces_strength b =
    (bit_count (pieces_of (side_to_move b) b) -
     bit_count (pieces_of (opponent (side_to_move b)) b)) +
    (bit_count (kings_of (side_to_move b) b) -
     bit_count (kings_of (opponent (side_to_move b)) b)).
Proof.
  intros [Hb Hw]. rewrite evaluate_pieces_strength_exact.
  unfold advantage, strength, material, men_of.
  assert (Hsplit : forall p,
    bit_count (pieces_of p b) =
    bit_count (bclear (pieces_of p b) (kings_of p b)) +
    bit_count (kings_of p b)).
  { intros []; apply bit_count_split; assumption. }
  split; [|lia].
  rewrite (Hsplit (side_to_move b)), (Hsplit (opponent (side_to_move b))).
  lia.
Qed.

Lemma pieces_strength_counts_material_witness :
  kings_among_pieces sample_material_board /\
  evaluate_pieces_strength sample_material_board = 3 - 5.
Proof.
  split; [split; reflexivity|].
  exact (proj1 (pieces_strength_counts_material sample_material_board
                  (conj eq_refl eq_refl))).
Defined.

(** C7: for a fixed placement of the pieces, the pieces-strength feature
    with black to move is the negation of the one with white to move. *)
Theorem pieces_strength_antisymmetric (bl wh bk wk : t) :
  evaluate_pieces_strength (mk_board bl wh bk wk BLACK) =
  - evaluate_pieces_strength (mk_board bl wh bk wk WHITE).
Proof.
  rewrite !evaluate_pieces_strength_exact.
  unfold advantage, strength. cbn. lia.
Qed.

(** C6: INFINITY is INT_MAX, WIN is 65535, and TIMEOUT is none of the scores
    from -INFINITY to INFINITY; the negation of such a score is again one
    of them, and every static evaluation is one of them. *)
Theorem timeout_outside_scores :
  INFINITY = INT_MAX /\ WIN = 65535 /\ TIMEOUT = INT_MIN /\
  (forall s, - INFINITY <= s <= INFINITY ->
     s <> TIMEOUT /\ - INFINITY <= - s <= INFINITY /\ int_wrap (- s) = - s) /\
  (forall b, - INFINITY <= evaluate b <= INFINITY /\ evaluate b <> TIMEOUT).
Proof.
  unfold INFINITY, WIN, TIMEOUT, INT_MAX, INT_MIN.
  repeat split; try lia.
  - apply int_wrap_small. unfold INT_MIN, INT_MAX. lia.
  - pose proof (evaluate_range b). lia.
  - pose proof (evaluate_range b). lia.
  - pose proof (evaluate_range b). lia.
Qed.

Lemma timeout_outside_scores_witness :
  - INFINITY <= - WIN <= INFINITY /\ - WIN <> TIMEOUT.
Proof.
  assert (H : - INFINITY <= - WIN <= INFINITY)
    by (unfold INFINITY, WIN, INT_MAX; lia).
  split; [exact H|].
  exact (proj1 (proj1 (proj2 (proj2 (proj2 timeout_outside_scores)))
                  (- WIN) H)).
Defined.

End evaluation_properties.

(** ** The match runner *)

Import runer.

Section arguments.

Local Open Scope string_scope.
Local Open Scope Z_scope.

(** The loop jumps over two arguments at a time, hence the induction on a
    bound of the length. *)
Lemma parse_loop_depth (n : nat) :
  forall args o o',
    (List.length args <= n)%nat ->
    0 <= opt_depth o <= 999 ->
    parse_loop args o = Args o' -> 0 <= opt_depth o' <= 999.
Proof.
  induction n as [|n IH]; intros args o o' Hlen Hd Hp.
  - destruct args; [|cbn in Hlen; lia]. cbn in Hp. congruence.
  - destruct args as [|a rest]; [cbn in Hp; congruence|].
    cbn [List.length] in Hlen. cbn [parse_loop] in Hp.
    destruct (String.eqb "--black" a).
    { destruct rest as [|v rest']; [congruence|].
      cbn [List.length] in Hlen.
      eapply IH; [| |exact Hp]; [lia|exact Hd]. }
    destruct (String.eqb "--white" a).
    { destruct rest as [|v rest']; [congruence|].
      cbn [List.length] in Hlen.
      eapply IH; [| |exact Hp]; [lia|exact Hd]. }
    destruct (String.eqb "--depth" a).
    { destruct rest as [|v rest']; [congruence|].
      cbn [List.length] in Hlen. cbv zeta in Hp.
      destruct ((int_wrap (strtol v) <? 0) || (int_wrap (strtol v) >? 999))
        eqn:E; [discriminate|].
      apply orb_false_iff in E. destruct E as [E1 E2].
      apply Z.ltb_ge in E1. rewrite Z.gtb_ltb in E2. apply Z.ltb_ge in E2.
      eapply IH; [| |exact Hp]; [lia|]. cbn [opt_depth]. lia. }
    eapply IH; [| |exact Hp]; [lia|exact Hd].
Qed.

Lemma parse_args_depth (argv : list string) (o : options) :
  parse_args argv = Args o -> 0 <= opt_depth o <= 999.
Proof.
  unfold parse_args. intros H.
  destruct (parse_loop (tl argv) default_options) as [o1|c] eqn:E;
    [|discriminate].
  destruct (String.eqb (opt_black o1) "" || String.eqb (opt_white o1) "");
    [discriminate|].
  injection H as <-.
  eapply (parse_loop_depth _ _ _ _ (le_n _)); [|exact E].
  cbn. lia.
Qed.

Lemma bad_depth_exits (v : string) (rest : list string) (o : options) :
  ~ 0 <= int_wrap (strtol v) <= 999 ->
  parse_loop ("--depth" :: v :: rest) o = ArgsExit 255.
Proof.
  intros H. cbn [parse_loop]. cbn [String.eqb Ascii.eqb Bool.eqb].
  cbv zeta.
  destruct ((int_wrap (strtol v) <? 0) || (int_wrap (strtol v) >? 999))
    eqn:E; [reflexivity|].
  exfalso. apply H.
  apply orb_false_iff in E. destruct E as [E1 E2].
  apply Z.ltb_ge in E1. rewrite Z.gtb_ltb in E2. apply Z.ltb_ge in E2.
  lia.
Qed.

(** C8, as the code has it: every depth the runner accepts lies between 0
    and 999 inclusive; a [--depth] value outside that range makes the
    runner exit with code 255; the engine's "unlimited" sentinel is the
    finite integer 999999. *)
Theorem accepted_depth_range :
  (forall argv o,
      parse_args argv = Args o -> 0 <= opt_depth o <= 999) /\
  (forall v rest o,
      ~ 0 <= int_wrap (strtol v) <= 999 ->
      parse_loop ("--depth" :: v :: rest) o = ArgsExit 255) /\
  (forall black white v polls,
      ~ 0 <= int_wrap (strtol v) <= 999 ->
      main ["runer"; "--black"; black; "--white"; white; "--depth"; v]
        polls = Exited 255 (mk_state 0 [])) /\
  engine.UNLIMITED = 999999 /\ 999 < engine.UNLIMITED <= INT_MAX.
Proof.
  split; [exact parse_args_depth|].
  split; [exact bad_depth_exits|].
  split.
  - intros bl wh v polls H. unfold main, parse_args. cbn [tl].
    replace (parse_loop ["--black"; bl; "--white"; wh; "--depth"; v]
               default_options)
      with (parse_loop ["--depth"; v] (mk_options bl wh 1))
      by reflexivity.
    rewrite bad_depth_exits by exact H. reflexivity.
  - unfold engine.UNLIMITED, INT_MAX. lia.
Qed.

Lemma accepted_depth_range_witness :
  parse_args ["runer"; "--black"; "a"; "--white"; "b"; "--depth"; "12"]
    = Args (mk_options "a" "b" 12) /\
  0 <= 12 <= 999 /\
  ~ 0 <= int_wrap (strtol "1000") <= 999 /\
  parse_loop ["--depth"; "1000"] default_options = ArgsExit 255.
Proof.
  assert (H : ~ 0 <= int_wrap (strtol "1000") <= 999)
    by (vm_compute; intros [_ H]; apply H; reflexivity).
  split; [reflexivity|]. split; [|split; [exact H|]].
  - exact (proj1 accepted_depth_range
             ["runer"; "--black"; "a"; "--white"; "b"; "--depth"; "12"]
             (mk_options "a" "b" 12) eq_refl).
  - exact (proj1 (proj2 accepted_depth_range) "1000" [] default_options H).
Defined.

(** C8 as stated fails: the runner accepts the depth 0. *)
Lemma depth_zero_accepted :
  ~ (forall argv o, parse_args argv = Args o -> 1 <= opt_depth o <= 999).
Proof.
  intros H.
  specialize (H ["runer"; "--black"; "a"; "--white"; "b"; "--depth"; "0"]
                (mk_options "a" "b" 0) eq_refl).
  cbn in H. lia.
Qed.

End arguments.

Section relay_loop_cap.

Local Open Scope string_scope.
Local Open Scope Z_scope.

Lemma relayed_put_IO (st : state) (s : string) :
  relayed (put IO s st) = relayed st.
Proof.
  unfold relayed, put. cbn [written]. rewrite filter_app. cbn.
  rewrite app_nil_r. reflexivity.
Qed.

Lemma relayed_put_engine (c : channel) (s : string) (st : state) :
  to_engine (c, s) = true -> relayed (put c s st) = relayed st + 1.
Proof.
  intros H. unfold relayed, put. cbn [written]. rewrite filter_app.
  cbn [filter]. rewrite H. rewrite length_app. cbn [List.length]. lia.
Qed.

Lemma moves_put (c : channel) (s : string) (st : state) :
  moves (put c s st) = moves st.
Proof. reflexivity. Qed.

Lemma last_written_put (c : channel) (s : string) (st : state) :
  last_written (put c s st) = Some (c, s).
Proof.
  unfold last_written, put. cbn [written]. rewrite map_app. cbn [map].
  apply last_last.
Qed.

Lemma counting_exit (code : Z) (st : state) :
  counting st -> capped (Exited code st).
Proof.
  intros [H1 H2]. cbn. unfold moves_limit in *. repeat split; lia.
Qed.

(** The body of a [case 'm'], for either engine. *)
Lemma relay_capped (who : string) (c : channel) (move : string)
  (st : state) :
  to_engine (c, move ++ nl) = true ->
  counting st ->
  capped
    (let st := put IO (who ++ move ++ nl) st in
     let st := put c (move ++ nl) st in
     let st := mk_state (int_add (moves st) 1) (written st) in
     if moves st >? moves_limit
     then Exited 0 (put IO ("RESULT 1/2-1/2 {Draw}" ++ nl) st)
     else Running st).
Proof.
  intros Hc [Hr Hm]. cbv zeta. cbn [moves written].
  rewrite !moves_put.
  assert (Hadd : int_add (moves st) 1 = moves st + 1).
  { unfold int_add. apply int_wrap_small.
    unfold INT_MIN, INT_MAX, moves_limit in *. lia. }
  rewrite Hadd.
  assert (Hrel : relayed
            (mk_state (moves st + 1)
               (written (put c (move ++ nl)
                           (put IO (who ++ move ++ nl) st))))
          = moves st + 1).
  { transitivity
      (relayed (put c (move ++ nl) (put IO (who ++ move ++ nl) st)));
      [reflexivity|].
    rewrite relayed_put_engine, relayed_put_IO by assumption. lia. }
  destruct (moves st + 1 >? moves_limit) eqn:E.
  - rewrite Z.gtb_ltb in E. apply Z.ltb_lt in E. cbn [capped].
    rewrite relayed_put_IO, moves_put. cbn [moves].
    rewrite last_written_put.
    unfold moves_limit in *. repeat split; try lia; try exact Hrel.
  - rewrite Z.gtb_ltb in E. apply Z.ltb_ge in E.
    cbn [capped]. split; [exact Hrel|]. cbn [moves]. lia.
Qed.

Lemma on_line_black_capped (line : string) (st : state) :
  counting st -> capped (on_line_black line st).
Proof.
  intros H. unfold on_line_black.
  destruct (Ascii.eqb (first_char line) "m").
  - destruct (substr line 5 4) as [move|].
    + apply (relay_capped "Black move " IO_WHITE move st);
        [reflexivity|exact H].
    + apply counting_exit, H.
  - destruct H as [Hr Hm].
    repeat match goal with
    | |- context [if ?c then _ else _] => destruct c
    end; cbn [capped]; unfold counting;
      rewrite ?relayed_put_IO, ?moves_put; unfold moves_limit in *;
      repeat split; try lia.
Qed.

Lemma on_line_white_capped (line_black line : string) (st : state) :
  counting st -> capped (on_line_white line_black line st).
Proof.
  intros H. unfold on_line_white.
  destruct (Ascii.eqb (first_char line) "m").
  - destruct (substr line 5 4) as [move|].
    + apply (relay_capped "White move " IO_BLACK move st);
        [reflexivity|exact H].
    + apply counting_exit, H.
  - destruct H as [Hr Hm].
    repeat match goal with
    | |- context [if ?c then _ else _] => destruct c
    end; cbn [capped]; unfold counting;
      rewrite ?relayed_put_IO, ?moves_put; unfold moves_limit in *;
      repeat split; try lia.
Qed.

Lemma round_capped (lb lw : string) (st : state) :
  counting st -> capped (round lb lw st).
Proof.
  intros H. unfold round.
  destruct (is_empty_line lb).
  - destruct (is_empty_line lw); [exact H|].
    apply on_line_white_capped, H.
  - pose proof (on_line_black_capped lb st H) as Hb.
    destruct (on_line_black lb st) as [st'|c st']; [|exact Hb].
    destruct (is_empty_line lw); [exact Hb|].
    apply on_line_white_capped, Hb.
Qed.

Lemma relay_loop_capped (polls : list (string * string)) :
  forall st, counting st -> capped (relay_loop polls st).
Proof.
  induction polls as [|[lb lw] rest IH]; intros st H; cbn [relay_loop].
  - exact H.
  - destruct (is_empty_line lb && is_empty_line lw); [apply IH, H|].
    pose proof (round_capped lb lw st H) as Hr.
    destruct (round lb lw st) as [st'|c st']; [apply IH, Hr|exact Hr].
Qed.

Lemma start_counting (o : options) : counting (start o).
Proof. unfold counting, start, relayed. cbn. unfold moves_limit. lia. Qed.

(** The 300th move ends a match this way. *)
Example three_hundred_moves :
  match relay_loop (repeat ("move 9-13", "") 300) (start default_options)
  with
  | Exited code st =>
      code = 0 /\ moves st = 300 /\ last_written st = Some (IO, draw_line)
  | Running _ => False
  end.
Proof. vm_compute. auto. Qed.

End relay_loop_cap.

Section forwarding.

Local Open Scope string_scope.
Local Open Scope nat_scope.

Lemma substring_prefix (n : nat) :
  forall s, prefix (substring 0 n s) s = true.
Proof.
  induction n as [|n IH]; intros s.
  - destruct s; reflexivity.
  - destruct s as [|c s]; [reflexivity|]. cbn.
    destruct (ascii_dec c c); [apply IH|congruence].
Qed.

Lemma substring_length (n : nat) :
  forall s, String.length (substring 0 n s) = Nat.min n (String.length s).
Proof.
  induction n as [|n IH]; intros s.
  - destruct s; reflexivity.
  - destruct s as [|c s]; [reflexivity|]. cbn. rewrite IH. reflexivity.
Qed.

Lemma forwarded_move_text (text : string) :
  forwarded ("move " ++ text) = Some (substring 0 4 text).
Proof. reflexivity. Qed.

Lemma forwarded_nine (line : string) :
  9 <= String.length line ->
  exists c5 c6 c7 c8,
    get 5 line = Some c5 /\ get 6 line = Some c6 /\
    get 7 line = Some c7 /\ get 8 line = Some c8 /\
    forwarded line =
      Some (String c5 (String c6 (String c7 (String c8 EmptyString)))).
Proof.
  intros H.
  do 9 (destruct line as [|? line]; [cbn in H; lia|]).
  do 4 eexists. cbn. repeat split. destruct line; reflexivity.
Qed.

Lemma forwarded_short (line : string) :
  String.length line < 5 -> forwarded line = None.
Proof.
  intros H. unfold forwarded, substr.
  destruct (Nat.leb 5 (String.length line)) eqn:E; [|reflexivity].
  apply Nat.leb_le in E. lia.
Qed.

Lemma forwarded_rest (line : string) :
  5 <= String.length line <= 9 ->
  forwarded line = Some (substring 5 (String.length line - 5) line).
Proof.
  intros H.
  do 5 (destruct line as [|? line]; [cbn in H; lia|]).
  cbn in H. unfold forwarded, substr. cbn.
  do 4 (destruct line as [|? line]; [reflexivity|]).
  destruct line; [reflexivity|cbn in H; lia].
Qed.

Lemma forwarded_long_text (text : string) :
  4 < String.length text ->
  exists token,
    forwarded ("move " ++ text) = Some token /\
    String.length token = 4 /\ prefix token text = true /\ token <> text.
Proof.
  intros H. exists (substring 0 4 text).
  split; [apply forwarded_move_text|].
  assert (L : String.length (substring 0 4 text) = 4)
    by (rewrite substring_length; lia).
  split; [exact L|]. split; [apply substring_prefix|].
  intros E. rewrite E in L. lia.
Qed.

(** What the two [case 'm'] write. *)
Lemma on_line_black_forwards (line : string) (st : state) (token : string) :
  first_char line = "m"%char -> forwarded line = Some token ->
  exists rest,
    written (state_of (on_line_black line st)) =
    List.app (written st)
      ((IO, "Black move " ++ token ++ nl) :: (IO_WHITE, token ++ nl) :: rest).
Proof.
  intros Hm Hf. unfold on_line_black. rewrite Hm. cbn [Ascii.eqb Bool.eqb].
  unfold forwarded in Hf. rewrite Hf. cbv zeta.
  match goal with
  | |- context [if ?c then _ else _] => destruct c
  end; cbn [state_of written put]; rewrite <- ?app_assoc; cbn [app];
    eexists; reflexivity.
Qed.

Lemma on_line_white_forwards (line_black line : string) (st : state)
  (token : string) :
  first_char line = "m"%char -> forwarded line = Some token ->
  exists rest,
    written (state_of (on_line_white line_black line st)) =
    List.app (written st)
      ((IO, "White move " ++ token ++ nl) :: (IO_BLACK, token ++ nl) :: rest).
Proof.
  intros Hm Hf. unfold on_line_white. rewrite Hm. cbn [Ascii.eqb Bool.eqb].
  unfold forwarded in Hf. rewrite Hf. cbv zeta.
  match goal with
  | |- context [if ?c then _ else _] => destruct c
  end; cbn [state_of written put]; rewrite <- ?app_assoc; cbn [app];
    eexists; reflexivity.
Qed.

Lemma short_move_line_exits (line : string) (st : state) :
  first_char line = "m"%char -> String.length line < 5 ->
  on_line_black line st = Exited 255 st /\
  forall line_black, on_line_white line_black line st = Exited 255 st.
Proof.
  intros Hm Hs. apply forwarded_short in Hs. unfold forwarded in Hs.
  unfold on_line_black, on_line_white. rewrite Hm, Hs.
  split; reflexivity.
Qed.

(** C10, as the code has it: for a line starting with 'm' the runner hands
    the other engine what [substr(5, 4)] gives, followed by a newline: the
    four characters at offsets 5 to 8 when the line has at least nine
    characters, all the characters from offset 5 on when it has five to
    nine, and nothing (the runner exits with 255) when it has fewer than
    five; a move text longer than four characters is cut to its first
    four. *)
Theorem forwarded_token :
  (forall line st token,
      first_char line = "m"%char -> forwarded line = Some token ->
      (exists rest,
          written (state_of (on_line_black line st)) =
          List.app (written st)
            ((IO, "Black move " ++ token ++ nl) ::
             (IO_WHITE, token ++ nl) :: rest)) /\
      (forall line_black, exists rest,
          written (state_of (on_line_white line_black line st)) =
          List.app (written st)
            ((IO, "White move " ++ token ++ nl) ::
             (IO_BLACK, token ++ nl) :: rest))) /\
  (forall line,
      9 <= String.length line ->
      exists c5 c6 c7 c8,
        get 5 line = Some c5 /\ get 6 line = Some c6 /\
        get 7 line = Some c7 /\ get 8 line = Some c8 /\
        forwarded line =
          Some (String c5 (String c6 (String c7 (String c8 EmptyString))))) /\
  (forall line,
      5 <= String.length line <= 9 ->
      forwarded line = Some (substring 5 (String.length line - 5) line)) /\
  (forall line st,
      first_char line = "m"%char -> String.length line < 5 ->
      forwarded line = None /\
      on_line_black line st = Exited 255 st /\
      forall line_black, on_line_white line_black line st = Exited 255 st) /\
  (forall text,
      4 < String.length text ->
      exists token,
        forwarded ("move " ++ text) = Some token /\
        String.length token = 4 /\ prefix token text = true /\
        token <> text).
Proof.
  split.
  { intros line st token Hm Hf. split.
    - apply on_line_black_forwards; assumption.
    - intros lb. apply on_line_white_forwards; assumption. }
  split; [exact forwarded_nine|].
  split; [exact forwarded_rest|].
  split; [|exact forwarded_long_text].
  intros line st Hm Hs. split; [apply forwarded_short, Hs|].
  apply short_move_line_exits; assumption.
Qed.

Lemma forwarded_token_witness :
  4 < String.length "11x18x25" /\
  exists token,
    forwarded "move 11x18x25" = Some token /\
    String.length token = 4 /\ prefix token "11x18x25" = true /\
    token <> "11x18x25".
Proof.
  assert (H : 4 < String.length "11x18x25") by (cbn; lia).
  split; [exact H|].
  exact (proj2 (proj2 (proj2 (proj2 forwarded_token))) "11x18x25" H).
Defined.

(** C10 as stated fails: the move line of the slide 1-5 has eight
    characters, and the runner forwards the three of the move text. *)
Lemma short_move_forwarded_whole :
  ~ (forall line,
        first_char line = "m"%char ->
        exists c5 c6 c7 c8,
          forwarded line =
          Some (String c5 (String c6 (String c7 (String c8 EmptyString))))).
Proof.
  intros H. destruct (H "move 1-5" eq_refl) as (c5 & c6 & c7 & c8 & E).
  cbv in E. discriminate.
Qed.

End forwarding.

(** ** Iterative deepening *)

Section iterative_deepening.

Variable world : Type.
Variable now : world -> Z.
Variable alpha_beta_search :
  world -> statics -> board -> Z -> Z * list move * statics * world.

(** The loop keeps, in the statics, the line of the last iteration that ran
    to completion; only its last iteration can have been abandoned. *)
Lemma iterate_trace (b : board) (verbose : bool) (n : nat) :
  forall depth w s,
    let '(s', its, _) :=
      iterate world alpha_beta_search n depth b verbose w s in
    _best_moves s' = fold_left keep_completed its (_best_moves s) /\
    forallb completed (removelast its) = true /\
    (List.length its <= n)%nat /\
    depths_from depth its.
Proof.
  induction n as [|n IH]; intros depth w s.
  - cbn. repeat split; lia.
  - cbn [iterate].
    destruct (alpha_beta_search w s b depth) as [[[val line] s1] w1].
    destruct (Z.eqb val TIMEOUT) eqn:E.
    + cbn [_best_moves fold_left removelast forallb List.length].
      unfold keep_completed, completed. cbn [it_val]. rewrite E.
      cbn. repeat split; try lia. unfold depths_from. cbn.
      rewrite Z.add_0_r. reflexivity.
    + match goal with
      | |- context [iterate world alpha_beta_search n ?d b verbose ?w' ?s'] =>
          specialize (IH d w' s');
          destruct (iterate world alpha_beta_search n d b verbose w' s')
            as [[s3 its] w3]
      end.
      destruct IH as (IH1 & IH2 & IH3 & IH4).
      cbn [_best_moves] in IH1. cbn [fold_left].
      assert (Hit : completed (mk_iteration depth val line) = true)
        by (unfold completed; cbn [it_val]; rewrite E; reflexivity).
      unfold keep_completed at 2. rewrite Hit. cbn [it_line].
      repeat split.
      * exact IH1.
      * destruct its as [|it its']; [reflexivity|].
        cbn [removelast forallb]. cbn [removelast] in IH2.
        rewrite Hit. exact IH2.
      * cbn [List.length]. lia.
      * unfold depths_from in *. cbn [List.length seq map it_depth].
        rewrite Z.add_0_r. f_equal. rewrite IH4.
        rewrite <- seq_shift, map_map. apply map_ext. intros i. lia.
Qed.

Lemma fold_keep_completed (its : list iteration) :
  forall acc,
    forallb completed its = true -> its <> [] ->
    fold_left keep_completed its acc =
    it_line (last its (mk_iteration 0 0 [])).
Proof.
  induction its as [|it its IH]; intros acc Hall Hne; [congruence|].
  cbn [forallb] in Hall. apply andb_true_iff in Hall.
  destruct Hall as [H1 H2].
  cbn [fold_left]. destruct its as [|it' its'].
  - cbn. unfold keep_completed. rewrite H1. reflexivity.
  - rewrite IH by (assumption || discriminate). reflexivity.
Qed.

Lemma answer_of_trace (its : list iteration) :
  forallb completed (removelast its) = true ->
  fold_left keep_completed its [] = answer_of its.
Proof.
  intros Hall. unfold answer_of.
  induction its as [|it earlier _] using rev_ind; [reflexivity|].
  rewrite removelast_last in Hall.
  rewrite rev_app_distr. cbn [rev app].
  rewrite fold_left_app. cbn [fold_left]. unfold keep_completed at 1.
  destruct (completed it); [reflexivity|].
  induction earlier as [|previous before _] using rev_ind; [reflexivity|].
  rewrite fold_keep_completed.
  - rewrite last_last, rev_app_distr. reflexivity.
  - exact Hall.
  - intros E. apply app_eq_nil in E. destruct E. discriminate.
Qed.

(** C5: whatever the search does, [think] runs the iterations 1, 2, ... in
    turn, at most [depth_limit] of them; all of them but possibly the last
    ran to completion; the line it returns is the line of the last
    iteration when that one completed and otherwise the line of the
    iteration before it (the empty line when there is none), never the
    line an abandoned iteration left. *)
Theorem think_answers_from_completed_iterations
  (b : board) (depth_limit second : Z) (verbose : bool)
  (w : world) (s : statics) :
  let '(pv, s', its, _) :=
    think world now alpha_beta_search b depth_limit second verbose w s in
  pv = answer_of its /\
  forallb completed (removelast its) = true /\
  _best_moves s' = pv /\
  (List.length its <= Z.to_nat depth_limit)%nat /\
  depths_from 1 its.
Proof.
  unfold think.
  destruct (generate b) as [|m ms].
  - cbn. repeat split. lia.
  - match goal with
    | |- context [iterate world alpha_beta_search ?n ?d b verbose w ?s0] =>
        pose proof (iterate_trace b verbose n d w s0) as H;
        destruct (iterate world alpha_beta_search n d b verbose w s0)
          as [[s1 its] w1]
    end.
    destruct H as (H1 & H2 & H3 & H4).
    unfold set_timeout in H1. cbn [_best_moves] in H1.
    repeat split; try assumption.
    rewrite H1. apply answer_of_trace, H2.
Qed.

End iterative_deepening.

(** With a search cut short in its third iteration, [think] answers with
    the line of the second. *)
Example think_keeps_second_iteration :
  let '(pv, _, its, _) :=
    think unit (fun _ => 0) sample_search initial_board 5 1 true tt
      (mk_statics [] false 0 0 []) in
  pv = [mk_move (square 9) (square 13) 0 false false;
        mk_move (square 23) (square 18) 0 false false] /\
  map it_depth its = [1; 2; 3] /\
  map completed its = [true; true; false].
Proof. vm_compute. repeat split. Qed.

(** ** The geometry of the shifts *)

Section geometry.

(** Replaces the test of a bit of a closed word by its value, and closed
    bit positions by numerals. *)
Ltac eval_bits :=
  repeat match goal with
  | |- context [Z.testbit ?c ?i] =>
      let v := eval vm_compute in (Z.testbit c i) in
      lazymatch v with
      | true => change (Z.testbit c i) with true
      | false => change (Z.testbit c i) with false
      end
  end.

Ltac norm_index :=
  repeat match goal with
  | |- context [Z.testbit ?x ?i] =>
      lazymatch i with
      | Z0 => fail
      | Zpos _ => fail
      | Zneg _ => fail
      | _ => let v := eval vm_compute in i in change i with v
      end
  end.

Ltac split_bits :=
  unfold has, LF, RF, LB, RB, wrap, band, bor;
  repeat first
    [ rewrite Z.land_spec | rewrite Z.lor_spec
    | rewrite Z.shiftr_spec by lia | rewrite Z.shiftl_spec by lia ].

Ltac case_bits :=
  repeat match goal with
  | |- context [Z.testbit ?x ?i] => destruct (Z.testbit x i)
  end.

Lemma shift_reverse_has (d : direction) (s : nat) (X : t) :
  (s < 32)%nat ->
  has (shift (reverse d) X) s =
    match neighbour d s with Some e => has X e | None => false end.
Proof.
  intros Hs.
  do 32 (destruct s as [|s];
    [ destruct d; cbn [reverse shift];
      match goal with |- _ = match ?n with _ => _ end =>
        let v := eval vm_compute in n in change n with v end;
      cbv iota; split_bits; norm_index; eval_bits; case_bits; reflexivity
    | ]).
  lia.
Qed.

Lemma shift_square (d : direction) (s : nat) :
  (s < 32)%nat ->
  shift d (square s) =
    match neighbour d s with Some e => square e | None => 0 end.
Proof.
  intros Hs.
  do 32 (destruct s as [|s]; [destruct d; vm_compute; reflexivity|]).
  lia.
Qed.

Lemma neighbour_on_board (d : direction) (s e : nat) :
  neighbour d s = Some e -> (e < 32)%nat.
Proof.
  unfold neighbour. intros H. apply find_some in H. destruct H as [H _].
  unfold squares in H. apply in_seq in H. lia.
Qed.

Lemma has_square (i j : nat) : has (square i) j = Nat.eqb i j.
Proof.
  unfold has, square. rewrite Z.shiftl_spec by lia.
  destruct (Nat.eqb i j) eqn:E.
  - apply Nat.eqb_eq in E. subst. rewrite Z.sub_diag. reflexivity.
  - apply Nat.eqb_neq in E.
    destruct (Z.ltb (Z.of_nat j - Z.of_nat i) 0) eqn:L.
    + apply Z.ltb_lt in L. apply Z.testbit_neg_r. exact L.
    + apply Z.ltb_ge in L.
      replace (Z.of_nat j - Z.of_nat i)
        with (Z.succ (Z.of_nat j - Z.of_nat i - 1)) by lia.
      change 1 with (2 * 0 + 1) at 1.
      rewrite Z.testbit_odd_succ by lia. apply Z.testbit_0_l.
Qed.

Lemma square_positive (i : nat) : 0 < square i.
Proof.
  unfold square. rewrite Z.shiftl_1_l. apply Z.pow_pos_nonneg; lia.
Qed.

Lemma square_injective (i j : nat) : square i = square j -> i = j.
Proof.
  intros H.
  assert (E : has (square i) j = has (square j) j)
    by (rewrite H; reflexivity).
  rewrite !has_square, Nat.eqb_refl in E. apply Nat.eqb_eq, E.
Qed.

(** A step lands on a square exactly when the table says so. *)
Lemma shift_square_inv (d : direction) (s e : nat) :
  (s < 32)%nat -> shift d (square s) = square e -> neighbour d s = Some e.
Proof.
  intros Hs H. rewrite shift_square in H by exact Hs.
  destruct (neighbour d s) as [e'|].
  - f_equal. apply square_injective, H.
  - pose proof (square_positive e). lia.
Qed.

Lemma band_square (i : nat) (X : t) :
  has X i = true -> band (square i) X = square i.
Proof.
  intros H. unfold band. apply Z.bits_inj'. intros n Hn.
  rewrite Z.land_spec.
  destruct (Z.testbit (square i) n) eqn:E; [|reflexivity].
  assert (n = Z.of_nat i).
  { replace n with (Z.of_nat (Z.to_nat n)) in E by lia.
    fold (has (square i) (Z.to_nat n)) in E. rewrite has_square in E.
    apply Nat.eqb_eq in E. lia. }
  subst n. exact H.
Qed.

Lemma band_square_none (i : nat) (X : t) :
  has X i = false -> band (square i) X = 0.
Proof.
  intros H. unfold band. apply Z.bits_inj'. intros n Hn.
  rewrite Z.land_spec, Z.bits_0.
  destruct (Z.testbit (square i) n) eqn:E; [|reflexivity].
  assert (n = Z.of_nat i).
  { replace n with (Z.of_nat (Z.to_nat n)) in E by lia.
    fold (has (square i) (Z.to_nat n)) in E. rewrite has_square in E.
    apply Nat.eqb_eq in E. lia. }
  subst n. exact H.
Qed.

Lemma is_empty_square (i : nat) : is_empty (square i) = false.
Proof.
  unfold is_empty. pose proof (square_positive i). apply Z.eqb_neq. lia.
Qed.

(** The shifts are the diagonal steps of the 8 x 8 board. *)
Lemma neighbour_is_diagonal_step (d : direction) (s : nat) :
  (s < 32)%nat -> neighbour d s = diagonal_step d s.
Proof.
  intros H.
  do 32 (destruct s as [|s]; [destruct d; vm_compute; reflexivity|]).
  lia.
Qed.

End geometry.

(** ** Mandatory capture *)

Section mandatory_capture.

Lemma has_union_over (ds : list direction) (f : direction -> t) (i : nat) :
  has (union_over ds f) i = existsb (fun d => has (f d) i) ds.
Proof.
  induction ds as [|d ds IH]; cbn [union_over fold_right existsb].
  - unfold has. apply Z.testbit_0_l.
  - fold (union_over ds f). unfold bor, has at 1. rewrite Z.lor_spec.
    fold (has (f d) i) (has (union_over ds f) i). rewrite IH. reflexivity.
Qed.

Lemma shift_zero (d : direction) : shift d 0 = 0.
Proof. destruct d; reflexivity. Qed.

Lemma band_zero_l (x : t) : band 0 x = 0.
Proof. reflexivity. Qed.

(** A piece with an enemy next to it and an empty square behind is found
    by the parallel computation of the jumpers. *)
Lemma can_jump_in_complete (d : direction) (pieces enemy empty : t)
  (s e l : nat) :
  (s < 32)%nat -> (e < 32)%nat ->
  has pieces s = true -> has enemy e = true -> has empty l = true ->
  shift d (square s) = square e -> shift d (square e) = square l ->
  has (can_jump_in d pieces enemy empty) s = true.
Proof.
  intros Hs He Hp Hen Hem H1 H2.
  apply shift_square_inv in H1; [|exact Hs].
  apply shift_square_inv in H2; [|exact He].
  unfold can_jump_in. rewrite has_band, Hp, shift_reverse_has, H1 by exact Hs.
  rewrite has_band, Hen, shift_reverse_has, H2 by exact He.
  rewrite Hem. reflexivity.
Qed.

(** And what that computation finds is a piece that can jump. *)
Lemma can_jump_in_sound (d : direction) (pieces enemy empty : t) (s : nat) :
  (s < 32)%nat ->
  has (can_jump_in d pieces enemy empty) s = true ->
  exists e l,
    has pieces s = true /\ has enemy e = true /\ has empty l = true /\
    shift d (square s) = square e /\ shift d (square e) = square l.
Proof.
  intros Hs H. unfold can_jump_in in H.
  rewrite has_band, shift_reverse_has in H by exact Hs.
  apply andb_true_iff in H. destruct H as [Hp H].
  destruct (neighbour d s) as [e|] eqn:N1; [|discriminate].
  pose proof (neighbour_on_board _ _ _ N1) as He.
  rewrite has_band, shift_reverse_has in H by exact He.
  destruct (neighbour d e) as [l|] eqn:N2;
    [|rewrite andb_false_r in H; discriminate].
  exists e, l. rewrite (shift_square d s Hs), (shift_square d e He), N1, N2.
  apply andb_true_iff in H. destruct H as [Hen' Hem]. auto.
Qed.

Lemma forward_in_directions (p : player) (king : bool) (d : direction) :
  In d (forward_directions p) -> In d (directions p king).
Proof.
  unfold directions. destruct king; [|auto]. intros H.
  apply in_or_app. left. exact H.
Qed.

Lemma directions_cases (p : player) (king : bool) (d : direction) :
  In d (directions p king) ->
  In d (forward_directions p) \/
  (king = true /\ In d (backward_directions p)).
Proof.
  unfold directions. destruct king; [|auto]. intros H.
  apply in_app_or in H. destruct H; auto.
Qed.

Lemma legal_jump_jumper (b : board) (s e d : nat) :
  legal_jump b s e d -> has (get_jumpers (side_to_move b) b) s = true.
Proof.
  intros (Hs & He & Hd & Hown & Hen & Hem & dir & Hdir & H1 & H2).
  unfold get_jumpers. rewrite has_bor, !has_union_over.
  apply orb_true_iff.
  apply directions_cases in Hdir. destruct Hdir as [Hf | [Hk Hb]].
  - left. apply existsb_exists. exists dir. split; [exact Hf|].
    apply (can_jump_in_complete dir _ _ _ s e d); assumption.
  - right. apply existsb_exists. exists dir. split; [exact Hb|].
    apply (can_jump_in_complete dir _ _ _ s e d); assumption.
Qed.

(** Every sequence the expansion returns has captured something. *)
Lemma jump_paths_capture (dirs : list direction) (stop_row : t)
  (fuel : nat) :
  forall cur enemy empty captured path,
    In path (jump_paths dirs stop_row fuel cur enemy empty captured) ->
    is_empty (snd path) = false.
Proof.
  induction fuel as [|fuel IH]; intros cur enemy empty captured path H;
    [contradiction|].
  cbn [jump_paths] in H. apply in_flat_map in H.
  destruct H as (d & _ & H). cbv zeta in H.
  set (over := band (shift d cur) enemy) in *.
  set (dest := band (shift d over) empty) in *.
  destruct (is_empty dest) eqn:Hdest; [contradiction|].
  assert (Hover : bor captured over <> 0).
  { intros E. apply Z.lor_eq_0_iff in E. destruct E as [_ E].
    unfold dest in Hdest. rewrite E, shift_zero, band_zero_l in Hdest.
    discriminate. }
  assert (Hnew : is_empty (bor captured over) = false)
    by (apply Z.eqb_neq, Hover).
  destruct (negb (is_empty (band dest stop_row))).
  - destruct H as [<-|[]]. exact Hnew.
  - destruct (jump_paths dirs stop_row fuel dest (bclear enemy over)
                (bor (bclear empty dest) (bor cur over))
                (bor captured over)) as [|r rs] eqn:E.
    + destruct H as [<-|[]]. exact Hnew.
    + apply (IH _ _ _ _ _ ltac:(rewrite E; exact H)).
Qed.

Lemma flat_map_inhabited (A B : Type) (f : A -> list B) (l : list A)
  (a : A) :
  In a l -> f a <> [] -> flat_map f l <> [].
Proof.
  intros Ha Hf Hnil. destruct (f a) as [|x xs] eqn:E; [congruence|].
  assert (H : In x (flat_map f l)).
  { apply in_flat_map. exists a. split; [exact Ha|]. rewrite E. apply in_eq. }
  rewrite Hnil in H. contradiction.
Qed.

(** A piece that can jump gets at least one sequence. *)
Lemma jump_paths_exist (dirs : list direction) (stop_row : t) (fuel : nat)
  (s e l : nat) (d : direction) (enemy empty captured : t) :
  In d dirs ->
  has enemy e = true -> has empty l = true ->
  shift d (square s) = square e -> shift d (square e) = square l ->
  jump_paths dirs stop_row (S fuel) (square s) enemy empty captured <> [].
Proof.
  intros Hd Hen Hem H1 H2. cbn [jump_paths].
  apply (flat_map_inhabited _ _ _ _ d Hd). cbv beta zeta.
  rewrite H1, (band_square e enemy Hen), H2, (band_square l empty Hem),
    is_empty_square.
  destruct (negb (is_empty (band (square l) stop_row))); [discriminate|].
  match goal with
  | |- match ?paths with _ => _ end <> [] =>
      destruct paths; discriminate
  end.
Qed.

Lemma jumper_has_jumps (p : player) (b : board) (s : nat) :
  (s < 32)%nat ->
  has (get_jumpers p b) s = true -> jumps_from p b s <> [].
Proof.
  intros Hs H. unfold get_jumpers in H.
  rewrite has_bor, !has_union_over in H. apply orb_true_iff in H.
  assert (Hfound : exists d e l,
    In d (directions p (has (kings_of p b) s)) /\
    has (pieces_of (opponent p) b) e = true /\
    has (get_empty b) l = true /\
    shift d (square s) = square e /\ shift d (square e) = square l).
  { destruct H as [H|H]; apply existsb_exists in H;
      destruct H as (d & Hd & H);
      apply can_jump_in_sound in H; try exact Hs;
      destruct H as (e & l & Hp & Hen & Hem & H1 & H2);
      exists d, e, l; repeat split; try assumption.
    - apply forward_in_directions, Hd.
    - rewrite Hp. unfold directions. apply in_or_app. right. exact Hd. }
  destruct Hfound as (d & e & l & Hd & Hen & Hem & H1 & H2).
  unfold jumps_from. intros Hnil. apply map_eq_nil in Hnil.
  revert Hnil. eapply jump_paths_exist; eassumption.
Qed.

Lemma jumps_from_capture (p : player) (b : board) (s : nat) (m : move) :
  In m (jumps_from p b s) -> is_jump m = true.
Proof.
  unfold jumps_from. intros H. apply in_map_iff in H.
  destruct H as ([dest captured] & <- & H).
  apply jump_paths_capture in H. unfold is_jump. cbn in *. rewrite H.
  reflexivity.
Qed.

Lemma jump_moves_capture (p : player) (b : board) (m : move) :
  In m (jump_moves p b) -> is_jump m = true.
Proof.
  unfold jump_moves. intros H. apply in_flat_map in H.
  destruct H as (s & _ & H).
  destruct (has (get_jumpers p b) s); [|contradiction].
  eapply jumps_from_capture, H.
Qed.

Lemma jumper_gives_moves (p : player) (b : board) (s : nat) :
  (s < 32)%nat ->
  has (get_jumpers p b) s = true -> jump_moves p b <> [].
Proof.
  intros Hs H Hnil.
  pose proof (jumper_has_jumps p b s Hs H) as Hne.
  destruct (jumps_from p b s) as [|m ms] eqn:E; [congruence|].
  assert (Hin : In m (jump_moves p b)).
  { unfold jump_moves. apply in_flat_map. exists s. split.
    - unfold squares. apply in_seq. lia.
    - rewrite H, E. left. reflexivity. }
  rewrite Hnil in Hin. contradiction.
Qed.

(** C1: on every board on which the side to move has a legal jump, the
    generator returns at least one move and every move it returns is a
    jump, none a slide. *)
Theorem mandatory_capture (b : board) :
  (exists s e d, legal_jump b s e d) ->
  generate b <> [] /\
  forall m, In m (generate b) -> is_jump m = true /\ is_slide m = false.
Proof.
  intros (s & e & d & H).
  pose proof (legal_jump_jumper b s e d H) as Hj.
  destruct H as (Hs & _).
  pose proof (jumper_gives_moves _ b s Hs Hj) as Hne.
  unfold generate.
  destruct (jump_moves (side_to_move b) b) as [|j js] eqn:E; [congruence|].
  split; [discriminate|]. intros m Hm. rewrite <- E in Hm.
  apply jump_moves_capture in Hm. split; [exact Hm|].
  unfold is_jump in Hm. unfold is_slide. destruct (is_empty (get_capture m)); 
    [discriminate|reflexivity].
Qed.

Lemma mandatory_capture_witness :
  legal_jump capture_board 10 14 17 /\
  generate capture_board <> [] /\
  forall m, In m (generate capture_board) ->
            is_jump m = true /\ is_slide m = false.
Proof.
  assert (H : legal_jump capture_board 10 14 17).
  { unfold legal_jump. cbv zeta.
    split; [lia|]. split; [lia|]. split; [lia|].
    split; [reflexivity|]. split; [reflexivity|]. split; [reflexivity|].
    exists DIR_LF. split; [left; reflexivity|].
    split; reflexivity. }
  split; [exact H|].
  exact (mandatory_capture capture_board
           (ex_intro _ 10%nat (ex_intro _ 14%nat (ex_intro _ 17%nat H)))).
Defined.

End mandatory_capture.

(** ** make and unmake *)

(** Bit by bit: turns the equations between words of the context and of the
    goal into equations between their bits at position [n] and decides them
    by cases. *)
Ltac bits_at n :=
  repeat match goal with
  | H : _ = _ |- _ =>
      apply (f_equal (fun x : Z => Z.testbit x n)) in H; cbv beta in H;
      revert H
  end;
  repeat first
    [ rewrite Z.land_spec | rewrite Z.lor_spec | rewrite Z.lxor_spec
    | rewrite Z.bits_0 ];
  repeat match goal with
  | |- context [Z.testbit ?x n] =>
      let v := fresh "bit" in
      generalize (Z.testbit x n); intro v; destruct v
  end;
  cbn; intros; congruence.

Ltac unfold_sets :=
  unfold get_empty, get_occupied, VALID_SQUARES in *;
  unfold fits, bclear, bnot, wrap, band, bor, bxor in *.

Ltac bitwise :=
  unfold_sets;
  let n := fresh "n" in
  apply Z.bits_inj'; intros n _; bits_at n.

Section sides.

Lemma opponent_involutive (p : player) : opponent (opponent p) = p.
Proof. destruct p; reflexivity. Qed.

Lemma pieces_with_side p own ownk opp oppk next :
  pieces_of p (with_side p own ownk opp oppk next) = own.
Proof. destruct p; reflexivity. Qed.

Lemma kings_with_side p own ownk opp oppk next :
  kings_of p (with_side p own ownk opp oppk next) = ownk.
Proof. destruct p; reflexivity. Qed.

Lemma enemy_with_side p own ownk opp oppk next :
  pieces_of (opponent p) (with_side p own ownk opp oppk next) = opp.
Proof. destruct p; reflexivity. Qed.

Lemma enemy_kings_with_side p own ownk opp oppk next :
  kings_of (opponent p) (with_side p own ownk opp oppk next) = oppk.
Proof. destruct p; reflexivity. Qed.

Lemma side_with_side p own ownk opp oppk next :
  side_to_move (with_side p own ownk opp oppk next) = next.
Proof. destruct p; reflexivity. Qed.

Lemma with_side_eta (b : board) :
  with_side (side_to_move b)
    (pieces_of (side_to_move b) b) (kings_of (side_to_move b) b)
    (pieces_of (opponent (side_to_move b)) b)
    (kings_of (opponent (side_to_move b)) b) (side_to_move b) = b.
Proof. destruct b as [bl wh bk wk []]; reflexivity. Qed.

(** The invariants of the data model, seen from the side to move. *)
Lemma well_formed_sides (b : board) :
  well_formed b <->
  let p := side_to_move b in
  fits (pieces_of p b) /\ fits (pieces_of (opponent p) b) /\
  band (pieces_of p b) (pieces_of (opponent p) b) = 0 /\
  band (kings_of p b) (pieces_of p b) = kings_of p b /\
  band (kings_of (opponent p) b) (pieces_of (opponent p) b) =
    kings_of (opponent p) b.
Proof.
  unfold well_formed. destruct b as [bl wh bk wk []]; cbn.
  - tauto.
  - unfold band. rewrite (Z.land_comm wh bl). tauto.
Qed.

End sides.

Section round_trip.

Implicit Types own own_kings opp opp_kings orig dest capture : t.

Lemma own_round_trip own orig dest :
  fits own -> band orig own = orig ->
  band dest (bclear own orig) = 0 ->
  bor (bclear (bor (bclear own orig) dest) dest) orig = own.
Proof. intros. bitwise. Qed.

Lemma opp_round_trip opp capture : bxor (bxor opp capture) capture = opp.
Proof. bitwise. Qed.

Lemma opp_kings_round_trip opp_kings capture :
  band capture opp_kings = 0 \/ band capture opp_kings = capture ->
  (if negb (is_empty (band capture opp_kings))
   then bor (bxor opp_kings (band opp_kings capture)) capture
   else bxor opp_kings (band opp_kings capture)) = opp_kings.
Proof.
  intros [H|H].
  - rewrite H. cbn [is_empty Z.eqb negb]. bitwise.
  - rewrite H. destruct (is_empty capture) eqn:E; cbn [negb].
    + apply Z.eqb_eq in E. bitwise.
    + clear E. bitwise.
Qed.

Lemma own_kings_round_trip own own_kings orig dest (crown : bool) :
  fits own -> band own_kings own = own_kings ->
  band orig own = orig -> orig <> 0 -> dest <> 0 ->
  band dest (bclear own orig) = 0 ->
  band orig own_kings = 0 \/
  (band orig own_kings = orig /\ crown = false) ->
  let crowned := if crown then bor own_kings dest else own_kings in
  let moved :=
    if is_empty (band orig own_kings) then crowned
    else bor (bclear crowned orig) dest in
  (if crown then bclear moved dest
   else if is_empty (band dest moved) then moved
        else bor (bclear moved dest) orig) = own_kings.
Proof.
  intros Hfits Hin Horig Hosome Hdsome Hfree [Hman|[Hking ->]]; cbv zeta.
  - rewrite Hman. cbn [is_empty Z.eqb]. clear Hosome Hdsome.
    destruct crown.
    + bitwise.
    + assert (E : band dest own_kings = 0) by bitwise.
      rewrite E. reflexivity.
  - rewrite Hking.
    assert (E1 : is_empty orig = false) by (apply Z.eqb_neq, Hosome).
    rewrite E1.
    assert (E2 : band dest (bor (bclear own_kings orig) dest) = dest)
      by (clear; bitwise).
    rewrite E2.
    assert (E3 : is_empty dest = false) by (apply Z.eqb_neq, Hdsome).
    rewrite E3. clear E1 E2 E3 Hosome Hdsome. bitwise.
Qed.

(** What [make] leaves is again within the invariants. *)
Lemma own_after_fits own orig dest :
  fits own -> fits dest -> fits (bor (bclear own orig) dest).
Proof. intros. bitwise. Qed.

Lemma opp_after_fits opp capture :
  fits opp -> band capture opp = capture -> fits (bxor opp capture).
Proof. intros. bitwise. Qed.

Lemma after_apart own opp orig dest capture :
  fits opp -> band own opp = 0 ->
  band dest (bclear opp capture) = 0 -> band capture opp = capture ->
  band (bxor opp capture) (bor (bclear own orig) dest) = 0.
Proof. intros. bitwise. Qed.

Lemma opp_kings_after_in opp opp_kings capture :
  band opp_kings opp = opp_kings ->
  band (bxor opp_kings (band opp_kings capture)) (bxor opp capture) =
  bxor opp_kings (band opp_kings capture).
Proof. intros. bitwise. Qed.

Lemma own_kings_after_in own own_kings orig dest (crown : bool) :
  fits own -> band own_kings own = own_kings ->
  band orig own = orig -> orig <> 0 ->
  band orig own_kings = 0 \/
  (band orig own_kings = orig /\ crown = false) ->
  let crowned := if crown then bor own_kings dest else own_kings in
  let moved :=
    if is_empty (band orig own_kings) then crowned
    else bor (bclear crowned orig) dest in
  band moved (bor (bclear own orig) dest) = moved.
Proof.
  intros Hfits Hin Horig Hosome [Hman|[Hking ->]]; cbv zeta.
  - rewrite Hman. cbn [is_empty Z.eqb]. clear Hosome.
    destruct crown; bitwise.
  - rewrite Hking.
    assert (E1 : is_empty orig = false) by (apply Z.eqb_neq, Hosome).
    rewrite E1. clear E1 Hosome. bitwise.
Qed.

End round_trip.

Section make_unmake.

Lemma unmake_make (b : board) (m : move) :
  well_formed b -> legal_shape b m -> uniform_capture b m ->
  unmake (make b m) m = b.
Proof.
  intros Hwf Hm Huni. apply well_formed_sides in Hwf.
  destruct Hwf as (Hown & Hopp & Hapart & Hk & Hok).
  destruct Hm as [Horig Hkind Hosome Hdfits Hdsome Hdfree Hdclear Hcap Hflag].
  unfold uniform_capture in Huni.
  unfold unmake, make.
  set (p := side_to_move b) in *.
  rewrite !side_with_side, !opponent_involutive.
  rewrite !pieces_with_side, !kings_with_side, !enemy_with_side,
    !enemy_kings_with_side.
  rewrite Hflag.
  rewrite own_round_trip by assumption.
  rewrite opp_round_trip.
  rewrite opp_kings_round_trip by assumption.
  pose proof (own_kings_round_trip (pieces_of p b) (kings_of p b)
                (get_orig m) (get_dest m) (will_crown m) Hown Hk Horig
                Hosome Hdsome Hdfree Hkind) as E.
  cbv zeta in E. rewrite E.
  apply with_side_eta.
Qed.

Lemma make_well_formed (b : board) (m : move) :
  well_formed b -> legal_shape b m -> well_formed (make b m).
Proof.
  intros Hwf Hm. apply well_formed_sides in Hwf.
  destruct Hwf as (Hown & Hopp & Hapart & Hk & Hok).
  destruct Hm as [Horig Hkind Hosome Hdfits Hdsome Hdfree Hdclear Hcap Hflag].
  apply well_formed_sides. cbv zeta. unfold make.
  set (p := side_to_move b) in *.
  rewrite !side_with_side.
  set (own' := bor (bclear (pieces_of p b) (get_orig m)) (get_dest m)).
  set (opp' := bxor (pieces_of (opponent p) b) (get_capture m)).
  set (oppk' := bxor (kings_of (opponent p) b)
                  (band (kings_of (opponent p) b) (get_capture m))).
  match goal with
  | |- context [with_side p own' ?k opp' oppk' (opponent p)] =>
      set (ownk' := k)
  end.
  assert (E : forall q, q = opponent p ->
    fits (pieces_of q (with_side p own' ownk' opp' oppk' q)) /\
    fits (pieces_of (opponent q) (with_side p own' ownk' opp' oppk' q)) /\
    band (pieces_of q (with_side p own' ownk' opp' oppk' q))
         (pieces_of (opponent q) (with_side p own' ownk' opp' oppk' q)) = 0 /\
    band (kings_of q (with_side p own' ownk' opp' oppk' q))
         (pieces_of q (with_side p own' ownk' opp' oppk' q)) =
      kings_of q (with_side p own' ownk' opp' oppk' q) /\
    band (kings_of (opponent q) (with_side p own' ownk' opp' oppk' q))
         (pieces_of (opponent q) (with_side p own' ownk' opp' oppk' q)) =
      kings_of (opponent q) (with_side p own' ownk' opp' oppk' q));
    [|apply E; reflexivity].
  intros q ->. rewrite !opponent_involutive.
  rewrite !pieces_with_side, !kings_with_side, !enemy_with_side,
    !enemy_kings_with_side.
  subst own' opp' oppk' ownk'.
  split; [apply opp_after_fits; assumption|].
  split; [apply own_after_fits; assumption|].
  split; [apply after_apart; assumption|].
  split; [apply opp_kings_after_in; assumption|].
  exact (own_kings_after_in (pieces_of p b) (kings_of p b)
           (get_orig m) (get_dest m) (will_crown m) Hown Hk Horig Hosome
           Hkind).
Qed.

(** On the other reading every legal move of a position within the
    invariants is undone exactly; what that reading loses is the
    invariants, see [gated_reading_not_restored]. *)
Lemma unmake_make_gated (b : board) (m : move) :
  well_formed b -> legal_shape b m ->
  unmake_gated (make_gated b m) m = b.
Proof.
  intros Hwf Hm. apply well_formed_sides in Hwf.
  destruct Hwf as (Hown & Hopp & Hapart & Hk & Hok).
  destruct Hm as [Horig Hkind Hosome Hdfits Hdsome Hdfree Hdclear Hcap Hflag].
  unfold unmake_gated, make_gated.
  set (p := side_to_move b) in *.
  rewrite !side_with_side, !opponent_involutive.
  rewrite !pieces_with_side, !kings_with_side, !enemy_with_side,
    !enemy_kings_with_side.
  rewrite own_round_trip by assumption.
  rewrite opp_round_trip.
  assert (Hkings :
    (if will_capture_a_king m
     then bxor (if will_capture_a_king m
                then bxor (kings_of (opponent p) b) (get_capture m)
                else kings_of (opponent p) b) (get_capture m)
     else if will_capture_a_king m
          then bxor (kings_of (opponent p) b) (get_capture m)
          else kings_of (opponent p) b) = kings_of (opponent p) b).
  { destruct (will_capture_a_king m); [apply opp_round_trip|reflexivity]. }
  rewrite Hkings.
  pose proof (own_kings_round_trip (pieces_of p b) (kings_of p b)
                (get_orig m) (get_dest m) (will_crown m) Hown Hk Horig
                Hosome Hdsome Hdfree Hkind) as E.
  cbv zeta in E. rewrite E.
  apply with_side_eta.
Qed.

End make_unmake.

Section generated_moves.

Lemma shift_fits (d : direction) (x : t) : fits (shift d x).
Proof.
  unfold fits, wrap. destruct d; cbn [shift]; unfold LF, RF, LB, RB, wrap;
    rewrite <- Z.land_assoc, Z.land_diag; reflexivity.
Qed.

Lemma square_fits (i : nat) : (i < 32)%nat -> fits (square i).
Proof.
  intros H. do 32 (destruct i as [|i]; [reflexivity|]). lia.
Qed.

Lemma empty_fits (b : board) : fits (get_empty b).
Proof. bitwise. Qed.

Lemma empty_free (b : board) (p : player) :
  band (get_empty b) (pieces_of p b) = 0.
Proof. destruct p; cbn [pieces_of]; bitwise. Qed.

Section expansion.

Variables own_rest opp : t.
Variable dirs : list direction.
Variable stop_row : t.
Hypothesis opp_fits : fits opp.
Hypothesis rest_apart : band own_rest opp = 0.

Lemma jump_paths_shape (fuel : nat) :
  forall cur enemy empty captured path,
    fits cur -> fits empty ->
    band empty enemy = 0 -> band empty own_rest = 0 ->
    band cur enemy = 0 -> band cur own_rest = 0 ->
    band enemy opp = enemy -> band captured opp = captured ->
    band (bclear opp captured) enemy = bclear opp captured ->
    In path (jump_paths dirs stop_row fuel cur enemy empty captured) ->
    fits (fst path) /\ fst path <> 0 /\
    band (fst path) own_rest = 0 /\
    band (fst path) (bclear opp (snd path)) = 0 /\
    band (snd path) opp = snd path.
Proof using opp_fits rest_apart.
  induction fuel as [|fuel IH];
    intros cur enemy empty captured path Hcur Hempty He1 He2 Hc1 Hc2
      Hen Hcap Hleft Hin; [contradiction|].
  cbn [jump_paths] in Hin. apply in_flat_map in Hin.
  destruct Hin as (d & _ & Hin). cbv zeta in Hin.
  pose proof (shift_fits d cur) as Hs1.
  pose proof (shift_fits d (band (shift d cur) enemy)) as Hs2.
  remember (shift d cur) as step1 eqn:E1.
  remember (shift d (band step1 enemy)) as step2 eqn:E2.
  clear E1 E2.
  destruct (is_empty (band step2 empty)) eqn:Hdest; [contradiction|].
  apply Z.eqb_neq in Hdest.
  assert (Hhere :
    fits (band step2 empty) /\ band step2 empty <> 0 /\
    band (band step2 empty) own_rest = 0 /\
    band (band step2 empty)
      (bclear opp (bor captured (band step1 enemy))) = 0 /\
    band (bor captured (band step1 enemy)) opp =
      bor captured (band step1 enemy)).
  { split; [clear Hdest Hin IH; bitwise|]. split; [exact Hdest|].
    clear Hdest Hin IH. repeat split; bitwise. }
  destruct (negb (is_empty (band (band step2 empty) stop_row))).
  - destruct Hin as [<-|[]]. exact Hhere.
  - destruct (jump_paths dirs stop_row fuel (band step2 empty)
                (bclear enemy (band step1 enemy))
                (bor (bclear empty (band step2 empty))
                   (bor cur (band step1 enemy)))
                (bor captured (band step1 enemy))) as [|r rs] eqn:E.
    + destruct Hin as [<-|[]]. exact Hhere.
    + rewrite <- E in Hin. clear E Hhere Hdest.
      revert Hin. apply IH; clear IH; bitwise.
Qed.

End expansion.

Lemma is_empty_false (x : t) : is_empty x = false -> x <> 0.
Proof. apply Z.eqb_neq. Qed.

Lemma square_nonzero (i : nat) : square i <> 0.
Proof. pose proof (square_positive i). lia. Qed.

(** The kind of the piece on square [i], as [legal_shape] wants it. *)
Lemma orig_kind (own_kings : t) (i : nat) (lands : bool) :
  band (square i) own_kings = 0 \/
  (band (square i) own_kings = square i /\
   negb (has own_kings i) && lands = false).
Proof.
  destruct (has own_kings i) eqn:E.
  - right. split; [apply band_square, E|reflexivity].
  - left. apply band_square_none, E.
Qed.

Lemma slides_from_shape (b : board) (i : nat) (m : move) :
  well_formed b -> (i < 32)%nat ->
  has (pieces_of (side_to_move b) b) i = true ->
  In m (slides_from (side_to_move b) b i) -> legal_shape b m.
Proof.
  intros Hwf Hi Hown Hin. apply well_formed_sides in Hwf.
  destruct Hwf as (Hfo & Hfe & Hapart & Hk & Hok).
  unfold slides_from in Hin. apply in_flat_map in Hin.
  destruct Hin as (d & _ & Hin). cbv zeta in Hin.
  pose proof (shift_fits d (square i)) as Hstep.
  pose proof (empty_fits b) as Hef.
  pose proof (empty_free b (side_to_move b)) as He1.
  pose proof (empty_free b (opponent (side_to_move b))) as He2.
  remember (shift d (square i)) as step eqn:E. clear E.
  remember (get_empty b) as empty eqn:E. clear E.
  destruct (is_empty (band step empty)) eqn:Hdest; [contradiction|].
  destruct Hin as [<-|[]].
  apply is_empty_false in Hdest.
  constructor; cbn [get_orig get_dest get_capture will_crown
                      will_capture_a_king _orig _dest _capture
                      _will_crown _will_capture_a_king].
  - apply band_square, Hown.
  - apply orig_kind.
  - apply square_nonzero.
  - clear Hdest. bitwise.
  - exact Hdest.
  - clear Hdest. bitwise.
  - clear Hdest. bitwise.
  - reflexivity.
  - reflexivity.
Qed.

Lemma jumper_is_own (b : board) (i : nat) :
  well_formed b ->
  has (get_jumpers (side_to_move b) b) i = true ->
  has (pieces_of (side_to_move b) b) i = true.
Proof.
  intros Hwf H. apply well_formed_sides in Hwf.
  destruct Hwf as (_ & _ & _ & Hk & _). cbv zeta in Hk.
  assert (Hking : has (kings_of (side_to_move b) b) i = true ->
                  has (pieces_of (side_to_move b) b) i = true).
  { intros E. rewrite <- Hk, has_band in E.
    apply andb_true_iff in E. apply E. }
  unfold get_jumpers in H.
  rewrite has_bor, !has_union_over in H. apply orb_true_iff in H.
  destruct H as [H|H]; apply existsb_exists in H;
    destruct H as (d & _ & H); unfold can_jump_in in H;
    rewrite has_band in H; apply andb_true_iff in H; destruct H as [H _];
    auto.
Qed.

(** The expansion started on the square of a piece of the side to move. *)
Lemma jump_paths_from_orig (own opp empty orig : t)
  (dirs : list direction) (stop_row : t) (fuel : nat) (path : t * t) :
  fits own -> fits opp -> fits orig -> fits empty ->
  band own opp = 0 -> band orig own = orig ->
  band empty own = 0 -> band empty opp = 0 ->
  In path (jump_paths dirs stop_row fuel orig opp empty 0) ->
  fits (fst path) /\ fst path <> 0 /\
  band (fst path) (bclear own orig) = 0 /\
  band (fst path) (bclear opp (snd path)) = 0 /\
  band (snd path) opp = snd path.
Proof.
  intros Hfo Hfe Hsq Hef Hapart Horig He1 He2.
  apply (jump_paths_shape (bclear own orig) opp dirs stop_row Hfe);
    try assumption.
  - clear - Hapart. bitwise.
  - clear - He1. bitwise.
  - clear - Horig Hapart. bitwise.
  - clear - Hsq. bitwise.
  - apply Z.land_diag.
  - reflexivity.
  - clear - Hfe. bitwise.
Qed.

Lemma jumps_from_paths (p : player) (b : board) (i : nat) (m : move) :
  In m (jumps_from p b i) ->
  exists dest captured,
    m = mk_move (square i) dest captured
          (negb (is_empty (band captured (kings_of (opponent p) b))))
          (negb (has (kings_of p b) i) && lands_on_crowning_row p dest) /\
    In (dest, captured)
      (jump_paths (directions p (has (kings_of p b) i))
         (if has (kings_of p b) i then 0 else crowning_row p) 32
         (square i) (pieces_of (opponent p) b) (get_empty b) 0).
Proof.
  unfold jumps_from. intros Hin. apply in_map_iff in Hin.
  destruct Hin as ([dest captured] & Hm & Hin).
  exists dest, captured. split; [symmetry; exact Hm|exact Hin].
Qed.

Lemma jump_move_shape (b : board) (i : nat) (dest captured : t) :
  has (pieces_of (side_to_move b) b) i = true ->
  fits dest -> dest <> 0 ->
  band dest (bclear (pieces_of (side_to_move b) b) (square i)) = 0 ->
  band dest
    (bclear (pieces_of (opponent (side_to_move b)) b) captured) = 0 ->
  band captured (pieces_of (opponent (side_to_move b)) b) = captured ->
  legal_shape b
    (mk_move (square i) dest captured
       (negb (is_empty
                (band captured (kings_of (opponent (side_to_move b)) b))))
       (negb (has (kings_of (side_to_move b) b) i) &&
        lands_on_crowning_row (side_to_move b) dest)).
Proof.
  intros Hown Hdf Hds Hd1 Hd2 Hc.
  apply mk_legal_shape.
  - apply band_square, Hown.
  - apply orig_kind.
  - apply square_nonzero.
  - exact Hdf.
  - exact Hds.
  - exact Hd1.
  - exact Hd2.
  - exact Hc.
  - reflexivity.
Qed.

Lemma jumps_from_shape (b : board) (i : nat) (m : move) :
  well_formed b -> (i < 32)%nat ->
  has (pieces_of (side_to_move b) b) i = true ->
  In m (jumps_from (side_to_move b) b i) -> legal_shape b m.
Proof.
  intros Hwf Hi Hown Hin. apply well_formed_sides in Hwf.
  destruct Hwf as (Hfo & Hfe & Hapart & Hk & Hok).
  apply jumps_from_paths in Hin.
  destruct Hin as (dest & captured & Hm & Hin).
  apply (jump_paths_from_orig (pieces_of (side_to_move b) b)) in Hin;
    [ | assumption | assumption | apply square_fits, Hi | apply empty_fits
      | assumption | apply band_square, Hown | apply empty_free
      | apply empty_free ].
  destruct Hin as (Hdf & Hds & Hd1 & Hd2 & Hc).
  rewrite Hm. exact (jump_move_shape b i dest captured Hown Hdf Hds Hd1 Hd2 Hc).
Qed.

Lemma generate_shape (b : board) (m : move) :
  well_formed b -> In m (generate b) -> legal_shape b m.
Proof.
  intros Hwf Hin. unfold generate in Hin. cbv zeta in Hin.
  assert (Hj : In m (jump_moves (side_to_move b) b) -> legal_shape b m).
  { unfold jump_moves. intros H. apply in_flat_map in H.
    destruct H as (i & Hi & H). unfold squares in Hi. apply in_seq in Hi.
    destruct (has (get_jumpers (side_to_move b) b) i) eqn:E;
      [|contradiction].
    apply (jumps_from_shape b i m Hwf); [lia| |exact H].
    apply jumper_is_own; assumption. }
  assert (Hs : In m (slide_moves (side_to_move b) b) -> legal_shape b m).
  { unfold slide_moves. intros H. apply in_flat_map in H.
    destruct H as (i & Hi & H). unfold squares in Hi. apply in_seq in Hi.
    destruct (has (pieces_of (side_to_move b) b) i) eqn:E;
      [|contradiction].
    apply (slides_from_shape b i m Hwf); [lia|exact E|exact H]. }
  destruct (jump_moves (side_to_move b) b) as [|j js];
    [exact (Hs Hin)|exact (Hj Hin)].
Qed.

Lemma initial_well_formed : well_formed initial_board.
Proof. repeat split. Qed.

Lemma reachable_well_formed (g : game) :
  reachable g -> well_formed (position g).
Proof.
  induction 1 as [|g m Hg IH Hm].
  - exact initial_well_formed.
  - cbn [make_move position]. apply make_well_formed; [exact IH|].
    apply generate_shape; assumption.
Qed.

Lemma undo_make_move (g : game) (m : move) :
  undo_move (make_move g m) =
  Some (mk_game (unmake (make (position g) m) m) (history g)).
Proof.
  unfold undo_move, make_move. cbn [history position].
  rewrite rev_app_distr. cbn [rev app]. rewrite rev_involutive.
  reflexivity.
Qed.

(** In the model: for every legal move whose captured pieces
    are all kings or all men (every slide and every single jump is such a
    move), make followed by unmake gives back the four bitboards and the
    side to move, in every position within the invariants of the data
    model, and so in every position reached by legal play, where the
    history comes back as well. *)
Theorem make_unmake_round_trip :
  (forall b m,
      well_formed b -> In m (generate b) -> uniform_capture b m ->
      unmake (make b m) m = b) /\
  (forall g m,
      reachable g -> In m (generate (position g)) ->
      uniform_capture (position g) m ->
      undo_move (make_move g m) = Some g).
Proof.
  split.
  - intros b m Hwf Hm Hu. apply unmake_make; [exact Hwf| |exact Hu].
    apply generate_shape; assumption.
  - intros g m Hg Hm Hu. rewrite undo_make_move.
    rewrite unmake_make.
    + destruct g; reflexivity.
    + apply reachable_well_formed, Hg.
    + apply generate_shape; [apply reachable_well_formed, Hg|exact Hm].
    + exact Hu.
Qed.

End generated_moves.


(** ** The two phases and the fuel of the expansion *)

Section phases.

Lemma jumper_has_legal_jump (b : board) (s : nat) :
  well_formed b -> (s < 32)%nat ->
  has (get_jumpers (side_to_move b) b) s = true ->
  exists e d, legal_jump b s e d.
Proof.
  intros Hwf Hs H.
  pose proof (jumper_is_own b s Hwf H) as Hown.
  unfold get_jumpers in H.
  rewrite has_bor, !has_union_over in H. apply orb_true_iff in H.
  assert (Hfound : exists d e l,
    In d (directions (side_to_move b)
            (has (kings_of (side_to_move b) b) s)) /\
    has (pieces_of (opponent (side_to_move b)) b) e = true /\
    has (get_empty b) l = true /\
    shift d (square s) = square e /\ shift d (square e) = square l).
  { destruct H as [H|H]; apply existsb_exists in H;
      destruct H as (d & Hd & H);
      apply can_jump_in_sound in H; try exact Hs;
      destruct H as (e & l & Hp & Hen & Hem & H1 & H2);
      exists d, e, l; repeat split; try assumption.
    - apply forward_in_directions, Hd.
    - rewrite Hp. unfold directions. apply in_or_app. right. exact Hd. }
  destruct Hfound as (d & e & l & Hd & Hen & Hem & H1 & H2).
  exists e, l. unfold legal_jump. cbv zeta.
  pose proof (shift_square_inv d s e Hs H1) as N1.
  pose proof (neighbour_on_board _ _ _ N1) as He.
  pose proof (shift_square_inv d e l He H2) as N2.
  pose proof (neighbour_on_board _ _ _ N2) as Hl.
  repeat split; try assumption. exists d. auto.
Qed.

(** Without a legal jump the generator gives the slides. *)
Lemma no_jump_only_slides (b : board) :
  well_formed b ->
  (forall s e d, ~ legal_jump b s e d) ->
  generate b = slide_moves (side_to_move b) b /\
  forall m, In m (generate b) -> is_slide m = true.
Proof.
  intros Hwf Hnone.
  assert (Hj : jump_moves (side_to_move b) b = []).
  { unfold jump_moves.
    assert (Hall : forall l, (forall i, In i l -> (i < 32)%nat) ->
      flat_map (fun i => if has (get_jumpers (side_to_move b) b) i
                         then jumps_from (side_to_move b) b i else []) l
      = []).
    { induction l as [|i l IH]; intros Hl; [reflexivity|].
      cbn [flat_map]. rewrite IH by (intros; apply Hl; right; assumption).
      destruct (has (get_jumpers (side_to_move b) b) i) eqn:E;
        [|reflexivity].
      exfalso.
      destruct (jumper_has_legal_jump b i Hwf (Hl i (or_introl eq_refl)) E)
        as (e & d & Hlegal).
      exact (Hnone _ _ _ Hlegal). }
    apply Hall. intros i Hi. unfold squares in Hi. apply in_seq in Hi. lia. }
  unfold generate. rewrite Hj. split; [reflexivity|].
  intros m Hm. unfold slide_moves in Hm. apply in_flat_map in Hm.
  destruct Hm as (i & _ & Hm).
  destruct (has (pieces_of (side_to_move b) b) i); [|contradiction].
  unfold slides_from in Hm. apply in_flat_map in Hm.
  destruct Hm as (d & _ & Hm). cbv zeta in Hm.
  destruct (is_empty _); [contradiction|].
  destruct Hm as [<-|[]]. reflexivity.
Qed.

End phases.

Section fuel.

Lemma count_below_le (n : nat) (a b : t) :
  (forall j, (j < n)%nat -> has b j = true -> has a j = true) ->
  count_below n b <= count_below n a.
Proof.
  induction n as [|n IH]; intros H; [reflexivity|].
  cbn [count_below]. specialize (IH ltac:(intros; apply H; [lia|assumption])).
  pose proof (H n ltac:(lia)) as Hn.
  destruct (has b n); [rewrite Hn by reflexivity; lia|].
  destruct (has a n); lia.
Qed.

Lemma count_below_lt (n : nat) (a b : t) (i : nat) :
  (i < n)%nat -> has a i = true -> has b i = false ->
  (forall j, (j < n)%nat -> has b j = true -> has a j = true) ->
  count_below n b < count_below n a.
Proof.
  induction n as [|n IH]; intros Hi Ha Hb H; [lia|].
  cbn [count_below].
  destruct (Nat.eq_dec i n) as [->|Hne].
  - rewrite Ha, Hb.
    pose proof (count_below_le n a b
                  ltac:(intros; apply H; [lia|assumption])). lia.
  - specialize (IH ltac:(lia) Ha Hb
                  ltac:(intros; apply H; [lia|assumption])).
    pose proof (H n ltac:(lia)) as Hn.
    destruct (has b n); [rewrite Hn by reflexivity; lia|].
    destruct (has a n); lia.
Qed.

Lemma testbit_MASK32_high (n : Z) : 32 <= n -> Z.testbit MASK32 n = false.
Proof.
  intros H. change MASK32 with (Z.ones 32). apply Z.ones_spec_high. lia.
Qed.

(** A non-empty word of the board has a square. *)
Lemma some_square (x : t) :
  fits x -> x <> 0 -> exists i, (i < 32)%nat /\ has x i = true.
Proof.
  intros Hfits Hne.
  destruct (existsb (has x) squares) eqn:E.
  - apply existsb_exists in E. destruct E as (i & Hi & Hx).
    exists i. split; [|exact Hx]. unfold squares in Hi.
    apply in_seq in Hi. lia.
  - exfalso. apply Hne. apply Z.bits_inj'. intros n Hn.
    rewrite Z.bits_0.
    destruct (Z.ltb n 32) eqn:L.
    + apply Z.ltb_lt in L.
      assert (Hall : forall i, In i squares -> has x i = false).
      { intros i Hi. destruct (has x i) eqn:Hx; [|reflexivity].
        assert (existsb (has x) squares = true)
          by (apply existsb_exists; exists i; auto).
        congruence. }
      specialize (Hall (Z.to_nat n)). unfold has in Hall.
      rewrite Z2Nat.id in Hall by lia. apply Hall.
      unfold squares. apply in_seq. lia.
    + apply Z.ltb_ge in L. unfold fits, wrap in Hfits.
      rewrite <- Hfits, Z.land_spec, testbit_MASK32_high by lia.
      apply andb_false_r.
Qed.

(** A jump takes a piece out of the enemy's. *)
Lemma jumped_piece_counts (d : direction) (cur enemy : t) :
  band (shift d cur) enemy <> 0 ->
  bit_count (bclear enemy (band (shift d cur) enemy)) < bit_count enemy.
Proof.
  intros Hne.
  assert (Hfits : fits (band (shift d cur) enemy)).
  { pose proof (shift_fits d cur) as Hs.
    remember (shift d cur) as step eqn:E. clear E Hne. bitwise. }
  destruct (some_square _ Hfits Hne) as (i & Hi & Hx).
  rewrite has_band in Hx. apply andb_true_iff in Hx. destruct Hx as [H1 H2].
  unfold bit_count. apply (count_below_lt 32 _ _ i Hi H2).
  - rewrite has_bclear, has_band, H1, H2 by exact Hi. reflexivity.
  - intros j Hj Hb. rewrite has_bclear in Hb by exact Hj.
    apply andb_true_iff in Hb. apply Hb.
Qed.

Lemma flat_map_ext_all (A B : Type) (f g : A -> list B) (l : list A) :
  (forall a, f a = g a) -> flat_map f l = flat_map g l.
Proof.
  intros H. induction l as [|a l IH]; [reflexivity|].
  cbn [flat_map]. rewrite H, IH. reflexivity.
Qed.

Lemma jump_paths_unfold (dirs : list direction) (stop_row : t) (fuel : nat)
  (cur enemy empty captured : t) :
  jump_paths dirs stop_row (S fuel) cur enemy empty captured =
  flat_map
    (fun d =>
       let over := band (shift d cur) enemy in
       let dest := band (shift d over) empty in
       if is_empty dest then []
       else
         let captured' := bor captured over in
         if negb (is_empty (band dest stop_row)) then [(dest, captured')]
         else
           match jump_paths dirs stop_row fuel dest (bclear enemy over)
                   (bor (bclear empty dest) (bor cur over)) captured'
           with
           | [] => [(dest, captured')]
           | longer => longer
           end)
    dirs.
Proof. reflexivity. Qed.

(** More fuel than the enemy has pieces changes nothing. *)
Lemma jump_paths_fuel (dirs : list direction) (stop_row : t) (fuel : nat) :
  forall cur enemy empty captured,
    bit_count enemy < Z.of_nat fuel ->
    jump_paths dirs stop_row (S fuel) cur enemy empty captured =
    jump_paths dirs stop_row fuel cur enemy empty captured.
Proof.
  induction fuel as [|fuel IH]; intros cur enemy empty captured Hcount.
  - pose proof (bit_count_range enemy). lia.
  - rewrite (jump_paths_unfold dirs stop_row (S fuel) cur enemy empty
               captured).
    rewrite (jump_paths_unfold dirs stop_row fuel cur enemy empty captured).
    apply flat_map_ext_all. intros d. cbv zeta.
    destruct (is_empty (band (shift d (band (shift d cur) enemy)) empty))
      eqn:Hdest; [reflexivity|].
    destruct (negb _); [reflexivity|].
    rewrite IH; [reflexivity|].
    assert (Hover : band (shift d cur) enemy <> 0).
    { intros E. rewrite E, shift_zero in Hdest. discriminate. }
    pose proof (jumped_piece_counts d cur enemy Hover). lia.
Qed.

Lemma jump_paths_enough (dirs : list direction) (stop_row : t)
  (extra : nat) :
  forall cur enemy empty captured,
    bit_count enemy < 32 ->
    jump_paths dirs stop_row (extra + 32) cur enemy empty captured =
    jump_paths dirs stop_row 32 cur enemy empty captured.
Proof.
  induction extra as [|extra IH]; intros cur enemy empty captured H;
    [reflexivity|].
  change (S extra + 32)%nat with (S (extra + 32)).
  rewrite jump_paths_fuel by lia. apply IH, H.
Qed.

End fuel.

Section played_games.

Lemma move_eqb_eq (a b : move) : move_eqb a b = true -> a = b.
Proof.
  unfold move_eqb. intros H.
  repeat match type of H with
         | _ && _ = true => apply andb_true_iff in H; destruct H as [H ?]
         end.
  destruct a, b; cbn in *.
  repeat match goal with
         | E : Z.eqb _ _ = true |- _ => apply Z.eqb_eq in E
         | E : Bool.eqb _ _ = true |- _ => apply Bool.eqb_prop in E
         end.
  congruence.
Qed.

Lemma existsb_move_in (m : move) (l : list move) :
  existsb (move_eqb m) l = true -> In m l.
Proof.
  intros H. apply existsb_exists in H. destruct H as (x & Hx & E).
  apply move_eqb_eq in E. subst. exact Hx.
Qed.

Lemma play_reachable (ms : list move) :
  forall g g', reachable g -> play g ms = Some g' -> reachable g'.
Proof.
  induction ms as [|m ms IH]; intros g g' Hg Hp; cbn [play] in Hp.
  - injection Hp as <-. exact Hg.
  - destruct (existsb (move_eqb m) (generate (position g))) eqn:E;
      [|discriminate].
    apply (IH (make_move g m)); [|exact Hp].
    apply reachable_make; [exact Hg|]. apply existsb_move_in, E.
Qed.

Lemma after_opening_reachable : reachable after_opening.
Proof.
  apply (play_reachable opening_line new_game); [apply reachable_new|].
  vm_compute. reflexivity.
Qed.

Lemma after_king_line_reachable : reachable after_king_line.
Proof.
  apply (play_reachable king_line new_game); [apply reachable_new|].
  vm_compute. reflexivity.
Qed.

Lemma make_unmake_round_trip_witness :
  reachable after_opening /\
  In white_double_jump (generate (position after_opening)) /\
  uniform_capture (position after_opening) white_double_jump /\
  undo_move (make_move after_opening white_double_jump) = Some after_opening.
Proof.
  assert (Hin : In white_double_jump (generate (position after_opening)))
    by (apply existsb_move_in; vm_compute; reflexivity).
  assert (Hu : uniform_capture (position after_opening) white_double_jump)
    by (left; vm_compute; reflexivity).
  split; [exact after_opening_reachable|].
  split; [exact Hin|]. split; [exact Hu|].
  exact (proj2 make_unmake_round_trip after_opening white_double_jump
           after_opening_reachable Hin Hu).
Defined.

Lemma mixed_jump_legal :
  In mixed_jump (generate (position after_king_line)).
Proof. apply existsb_move_in. vm_compute. reflexivity. Qed.

(** After [make] and [unmake] white has the kings 11 and 19, before it had
    the king 11 only. *)
Lemma mixed_jump_kings :
  option_map (fun g => white_kings (position g))
    (undo_move (make_move after_king_line mixed_jump)) <>
  option_map (fun g => white_kings (position g)) (Some after_king_line).
Proof. vm_compute. discriminate. Qed.

(** In the model, after the king line black may jump the white king on 11
    and the white man on 19 in one move; the one captured-a-king flag makes
    this [unmake] put both back as kings. *)
Lemma mixed_capture_not_restored :
  ~ (forall g m,
        reachable g -> In m (generate (position g)) ->
        undo_move (make_move g m) = Some g).
Proof.
  intros H.
  specialize (H after_king_line mixed_jump after_king_line_reachable
                mixed_jump_legal).
  apply mixed_jump_kings. rewrite H. reflexivity.
Qed.

Lemma mixed_jump_legal_twin : In mixed_jump (generate twin_board).
Proof. apply existsb_move_in. vm_compute. reflexivity. Qed.

Lemma twin_well_formed : well_formed twin_board.
Proof. vm_compute. repeat split. Qed.

Lemma twin_made_alike :
  make (position after_king_line) mixed_jump = make twin_board mixed_jump.
Proof. vm_compute. reflexivity. Qed.

Lemma twin_differs :
  white_kings (position after_king_line) <> white_kings twin_board.
Proof. vm_compute. discriminate. Qed.

(** No other [unmake] would do better: [make] sends the position after the
    king line and its twin to the same position, with the same move. *)
Lemma single_flag_loses_information (restore : board -> move -> board) :
  ~ (forall b m,
        well_formed b -> In m (generate b) -> restore (make b m) m = b).
Proof.
  intros H.
  pose proof (H _ _ (reachable_well_formed _ after_king_line_reachable)
                mixed_jump_legal) as E1.
  pose proof (H _ _ twin_well_formed mixed_jump_legal_twin) as E2.
  rewrite twin_made_alike, E2 in E1.
  apply twin_differs. rewrite <- E1. reflexivity.
Qed.

(** *** The other reading *)

Lemma play_with_reachable (apply : board -> move -> board)
  (ms : list move) :
  forall b b',
    reachable_with apply b -> play_with apply b ms = Some b' ->
    reachable_with apply b'.
Proof.
  induction ms as [|m ms IH]; intros b b' Hb Hp; cbn [play_with] in Hp.
  - injection Hp as <-. exact Hb.
  - destruct (existsb (move_eqb m) (generate b)) eqn:E; [|discriminate].
    apply (IH (apply b m)); [|exact Hp].
    apply reachable_with_make; [exact Hb|]. apply existsb_move_in, E.
Qed.

Lemma after_mixed_jump_gated_reachable :
  reachable_with make_gated after_mixed_jump_gated.
Proof.
  apply (play_with_reachable make_gated (king_line ++ [mixed_jump])
           initial_board); [apply reachable_with_new|].
  vm_compute. reflexivity.
Qed.

Lemma white_answer_legal :
  In white_answer (generate after_mixed_jump_gated).
Proof. apply existsb_move_in. vm_compute. reflexivity. Qed.

(** The mixed jump itself is undone exactly on this reading, but it leaves a
    king bit on the empty square 19; the man that lands there next comes
    back from [unmake_gated] as a king on 28. *)
Lemma white_answer_kings :
  white_kings
    (unmake_gated (make_gated after_mixed_jump_gated white_answer)
       white_answer) <>
  white_kings after_mixed_jump_gated.
Proof. vm_compute. discriminate. Qed.

Lemma gated_reading_not_restored :
  ~ (forall b m,
        reachable_with make_gated b -> In m (generate b) ->
        unmake_gated (make_gated b m) m = b).
Proof.
  intros H.
  specialize (H after_mixed_jump_gated white_answer
                after_mixed_jump_gated_reachable white_answer_legal).
  apply white_answer_kings. rewrite H. reflexivity.
Qed.

End played_games.

(** ** The evaluator, beyond the material *)

Section evaluation_more.

(** X1: for a fixed placement of the pieces, [evaluate] with black to move
    is the negation of [evaluate] with white to move, and so are the movers,
    kings-row and edges features: each is a difference of per-colour counts
    that do not look at the side to move. *)
Theorem evaluate_antisymmetric (bl wh bk wk : t) :
  evaluate (mk_board bl wh bk wk BLACK) =
  - evaluate (mk_board bl wh bk wk WHITE) /\
  evaluate_movers (mk_board bl wh bk wk BLACK) =
  - evaluate_movers (mk_board bl wh bk wk WHITE) /\
  evaluate_kings_row (mk_board bl wh bk wk BLACK) =
  - evaluate_kings_row (mk_board bl wh bk wk WHITE) /\
  evaluate_edges (mk_board bl wh bk wk BLACK) =
  - evaluate_edges (mk_board bl wh bk wk WHITE).
Proof.
  rewrite !evaluate_exact, !evaluate_movers_exact, !evaluate_kings_row_exact,
    !evaluate_edges_exact.
  unfold advantage. cbn [side_to_move opponent].
  unfold strength, mobility, back_row_guard, edge_presence, get_movers,
    get_empty, get_occupied.
  cbn [pieces_of kings_of opponent black white black_kings white_kings].
  repeat split; lia.
Qed.

Lemma bit_count_le (a b : t) :
  (forall j, (j < 32)%nat -> has b j = true -> has a j = true) ->
  bit_count b <= bit_count a.
Proof. apply count_below_le. Qed.

Lemma bit_count_band_l (a b : t) : bit_count (band a b) <= bit_count a.
Proof.
  apply bit_count_le. intros j _ H. rewrite has_band in H.
  apply andb_true_iff in H. apply H.
Qed.

Lemma bit_count_band_r (a b : t) : bit_count (band a b) <= bit_count b.
Proof.
  apply bit_count_le. intros j _ H. rewrite has_band in H.
  apply andb_true_iff in H. apply H.
Qed.

Lemma has_zero (i : nat) : has 0 i = false.
Proof. unfold has. apply Z.testbit_0_l. Qed.

Lemma union_over_within (ds : list direction) (f : direction -> t) (x : t)
  (j : nat) :
  (forall d, has (f d) j = true -> has x j = true) ->
  has (union_over ds f) j = true -> has x j = true.
Proof.
  intros H Hu. rewrite has_union_over in Hu. apply existsb_exists in Hu.
  destruct Hu as (d & _ & Hd). exact (H d Hd).
Qed.

(** Movers are pieces. *)
Lemma movers_within (p : player) (b : board) :
  band (kings_of p b) (pieces_of p b) = kings_of p b ->
  mobility p b <= bit_count (pieces_of p b).
Proof.
  intros Hk. unfold mobility. apply bit_count_le. intros j _ H.
  unfold get_movers in H. rewrite has_bor in H. apply orb_true_iff in H.
  destruct H as [H|H].
  - revert H. apply union_over_within. intros d Hd.
    unfold can_step_in in Hd. rewrite has_band in Hd.
    apply andb_true_iff in Hd. apply Hd.
  - assert (Hking : has (kings_of p b) j = true).
    { revert H. apply union_over_within. intros d Hd.
      unfold can_step_in in Hd. rewrite has_band in Hd.
      apply andb_true_iff in Hd. apply Hd. }
    rewrite <- Hk, has_band in Hking. apply andb_true_iff in Hking.
    apply Hking.
Qed.

Lemma back_row_guard_small (p : player) (b : board) :
  0 <= back_row_guard p b <= 4.
Proof.
  unfold back_row_guard. split; [apply bit_count_range|].
  etransitivity; [apply bit_count_band_r|]. destruct p; vm_compute; discriminate.
Qed.

Lemma edge_presence_within (p : player) (b : board) :
  0 <= edge_presence p b <= bit_count (pieces_of p b).
Proof.
  unfold edge_presence. split; [apply bit_count_range|apply bit_count_band_l].
Qed.

Lemma kings_among_pieces_sides (b : board) (p : player) :
  kings_among_pieces b ->
  band (kings_of p b) (pieces_of p b) = kings_of p b.
Proof. intros [Hb Hw]. destruct p; assumption. Qed.

(** X2: material decides the sign of [evaluate].  With at most twelve
    pieces a side and the kings among them, the movers, kings-row and edges
    terms add up to less than the weight 256 of one point of material: the
    score is positive when the side to move is ahead in material, negative
    when it is behind, and within 256 of 256 times the material. *)
Theorem material_outweighs_position (b : board) :
  kings_among_pieces b ->
  bit_count (black b) <= 12 -> bit_count (white b) <= 12 ->
  (0 < evaluate_pieces_strength b -> 0 < evaluate b) /\
  (evaluate_pieces_strength b < 0 -> evaluate b < 0) /\
  (evaluate_pieces_strength b - 1) * 256 < evaluate b <
  (evaluate_pieces_strength b + 1) * 256.
Proof.
  intros Hk Hbl Hwh.
  assert (Hcount : forall p, bit_count (pieces_of p b) <= 12)
    by (intros []; assumption).
  assert (Hm : forall p, 0 <= mobility p b <= 12).
  { intros p. split; [apply mobility_range|].
    etransitivity; [apply movers_within, kings_among_pieces_sides, Hk|].
    apply Hcount. }
  assert (He : forall p, 0 <= edge_presence p b <= 12).
  { intros p. pose proof (edge_presence_within p b). specialize (Hcount p).
    lia. }
  rewrite evaluate_exact, evaluate_pieces_strength_exact.
  pose proof (advantage_range mobility 12 b Hm).
  pose proof (advantage_range back_row_guard 4 b
                (fun p => back_row_guard_small p b)).
  pose proof (advantage_range edge_presence 12 b He).
  lia.
Qed.

Lemma material_outweighs_position_witness :
  kings_among_pieces sample_material_board /\
  evaluate_pieces_strength sample_material_board < 0 /\
  evaluate sample_material_board < 0.
Proof.
  assert (Hk : kings_among_pieces sample_material_board)
    by (split; reflexivity).
  assert (Hs : evaluate_pieces_strength sample_material_board < 0)
    by reflexivity.
  assert (Hb : bit_count (black sample_material_board) <= 12)
    by (vm_compute; discriminate).
  assert (Hw : bit_count (white sample_material_board) <= 12)
    by (vm_compute; discriminate).
  split; [exact Hk|]. split; [exact Hs|].
  exact (proj1 (proj2 (material_outweighs_position sample_material_board
                         Hk Hb Hw)) Hs).
Defined.

(** X3: a static score is never a win score: [evaluate] stays strictly
    between [-WIN] and [WIN], for every content of the five words of the
    board. *)
Theorem evaluate_below_win (b : board) :
  - WIN < evaluate b < WIN /\ Z.abs (evaluate b) <= 18048.
Proof.
  pose proof (evaluate_range b). unfold WIN. split; lia.
Qed.

End evaluation_more.

(** ** The crash handler's number printer *)

Import crash.

Section number_dump.

Local Open Scope string_scope.
Local Open Scope Z_scope.












End number_dump.

(** ** The relay loop, line by line *)

Import relay.

Section relay_order.

Local Open Scope string_scope.
Local Open Scope Z_scope.

Lemma sent_put (c c' : channel) (s : string) (st : state) :
  sent c (put c' s st) =
  List.app (sent c st) (if channel_eqb c' c then [s] else []).
Proof.
  unfold sent, put. cbn [written]. rewrite filter_app, map_app.
  cbn [filter fst]. destruct (channel_eqb c' c); reflexivity.
Qed.

Lemma empty_line_no_token (line : string) :
  is_empty_line line = true -> token_of line = [].
Proof.
  unfold is_empty_line. intros H. apply String.eqb_eq in H. subst.
  reflexivity.
Qed.

(** The body of a [case 'm'], for either engine. *)
Lemma relay_sent (who : string) (c c' : channel) (move : string)
  (st : state) :
  sent c'
    (state_of
       (let st := put IO (who ++ move ++ nl) st in
        let st := put c (move ++ nl) st in
        let st := mk_state (int_add (moves st) 1) (written st) in
        if moves st >? moves_limit
        then Exited 0 (put IO ("RESULT 1/2-1/2 {Draw}" ++ nl) st)
        else Running st)) =
  List.app (sent c' st)
    (List.app (if channel_eqb IO c' then [who ++ move ++ nl] else [])
       (List.app (if channel_eqb c c' then [move ++ nl] else [])
          (if channel_eqb IO c'
           then if int_add (moves st) 1 >? moves_limit
                then ["RESULT 1/2-1/2 {Draw}" ++ nl] else []
           else []))).
Proof.
  cbv zeta. cbn [moves written put].
  destruct (int_add (moves st) 1 >? moves_limit); cbn [state_of];
    unfold sent, put; cbn [written];
    rewrite ?filter_app, ?map_app; cbn [filter fst];
    destruct (channel_eqb IO c'), (channel_eqb c c'); cbn [map snd List.app];
    rewrite <- ?app_assoc; reflexivity.
Qed.

Lemma on_line_black_sent (line : string) (st : state) :
  sent IO_WHITE (state_of (on_line_black line st)) =
    List.app (sent IO_WHITE st) (token_of line) /\
  sent IO_BLACK (state_of (on_line_black line st)) = sent IO_BLACK st.
Proof.
  unfold on_line_black, token_of, forwarded. cbv zeta.
  destruct (Ascii.eqb (first_char line) "m").
  - destruct (substr line 5 4) as [move|].
    + split.
      * pose proof (relay_sent "Black move " IO_WHITE IO_WHITE move st) as H.
        cbv zeta in H. rewrite H.
        cbn [channel_eqb List.app]. reflexivity.
      * pose proof (relay_sent "Black move " IO_WHITE IO_BLACK move st) as H.
        cbv zeta in H. rewrite H.
        cbn [channel_eqb List.app]. apply app_nil_r.
    + cbn [state_of]. rewrite app_nil_r. split; reflexivity.
  - destruct (Ascii.eqb (first_char line) "R");
      [|destruct (Ascii.eqb (first_char line) "E");
        [|destruct (Ascii.eqb (first_char line) " ")]];
      cbn [state_of]; rewrite ?sent_put; cbn [channel_eqb];
      rewrite ?app_nil_r; split; reflexivity.
Qed.

Lemma on_line_white_sent (line_black line : string) (st : state) :
  sent IO_BLACK (state_of (on_line_white line_black line st)) =
    List.app (sent IO_BLACK st) (token_of line) /\
  sent IO_WHITE (state_of (on_line_white line_black line st)) =
    sent IO_WHITE st.
Proof.
  unfold on_line_white, token_of, forwarded. cbv zeta.
  destruct (Ascii.eqb (first_char line) "m").
  - destruct (substr line 5 4) as [move|].
    + split.
      * pose proof (relay_sent "White move " IO_BLACK IO_BLACK move st) as H.
        cbv zeta in H. rewrite H.
        cbn [channel_eqb List.app]. reflexivity.
      * pose proof (relay_sent "White move " IO_BLACK IO_WHITE move st) as H.
        cbv zeta in H. rewrite H.
        cbn [channel_eqb List.app]. apply app_nil_r.
    + cbn [state_of]. rewrite app_nil_r. split; reflexivity.
  - destruct (Ascii.eqb (first_char line) "R");
      [|destruct (Ascii.eqb (first_char line) "E");
        [|destruct (Ascii.eqb (first_char line) " ")]];
      cbn [state_of]; rewrite ?sent_put; cbn [channel_eqb];
      rewrite ?app_nil_r; split; reflexivity.
Qed.

(** One pass: black's line is always handled; white's unless black's line
    ended the match. *)
Lemma round_sent (lb lw : string) (st : state) :
  sent IO_WHITE (state_of (round lb lw st)) =
    List.app (sent IO_WHITE st) (token_of lb) /\
  (sent IO_BLACK (state_of (round lb lw st)) =
     List.app (sent IO_BLACK st) (token_of lw) \/
   exit_code (round lb lw st) <> None /\
   sent IO_BLACK (state_of (round lb lw st)) = sent IO_BLACK st).
Proof.
  unfold round.
  assert (Hb :
    sent IO_WHITE
      (state_of (if is_empty_line lb then Running st
                 else on_line_black lb st)) =
      List.app (sent IO_WHITE st) (token_of lb) /\
    sent IO_BLACK
      (state_of (if is_empty_line lb then Running st
                 else on_line_black lb st)) = sent IO_BLACK st).
  { destruct (is_empty_line lb) eqn:E.
    - rewrite empty_line_no_token by exact E. cbn [state_of].
      rewrite app_nil_r. split; reflexivity.
    - apply on_line_black_sent. }
  destruct (if is_empty_line lb then Running st else on_line_black lb st)
    as [st1|c st1]; cbn [state_of] in Hb; destruct Hb as [Hw Hk].
  - destruct (is_empty_line lw) eqn:E.
    + rewrite (empty_line_no_token lw) by exact E. cbn [state_of].
      rewrite app_nil_r. split; [exact Hw|left; exact Hk].
    + destruct (on_line_white_sent lb lw st1) as [H1 H2].
      rewrite H1, H2, Hw, Hk. split; [reflexivity|left; reflexivity].
  - cbn [state_of exit_code]. split; [exact Hw|right].
    split; [discriminate|exact Hk].
Qed.

Lemma relay_loop_sent (polls : list (string * string)) :
  forall st,
  exists kb kw : nat,
    (kw <= kb <= kw + 1)%nat /\ (kb <= List.length polls)%nat /\
    sent IO_WHITE (state_of (relay_loop polls st)) =
      List.app (sent IO_WHITE st)
        (flat_map (fun p => token_of (fst p)) (firstn kb polls)) /\
    sent IO_BLACK (state_of (relay_loop polls st)) =
      List.app (sent IO_BLACK st)
        (flat_map (fun p => token_of (snd p)) (firstn kw polls)) /\
    match relay_loop polls st with
    | Running _ => kb = List.length polls /\ kw = List.length polls
    | Exited _ _ => True
    end.
Proof.
  induction polls as [|[lb lw] rest IH]; intros st.
  - exists 0%nat, 0%nat. cbn. rewrite !app_nil_r. repeat split; lia.
  - cbn [relay_loop].
    destruct (is_empty_line lb && is_empty_line lw) eqn:E.
    + apply andb_true_iff in E. destruct E as [Eb Ew].
      destruct (IH st) as (kb & kw & Hk & Hlen & Hw & Hb & Hrun).
      exists (S kb), (S kw). cbn [firstn flat_map fst snd List.length].
      rewrite (empty_line_no_token lb), (empty_line_no_token lw)
        by assumption.
      cbn [List.app]. repeat split; try lia; try assumption.
      destruct (relay_loop rest st); [lia|exact I].
    + destruct (round_sent lb lw st) as [Hw Hb].
      destruct (round lb lw st) as [st1|c st1] eqn:R;
        cbn [state_of exit_code] in Hw, Hb.
      * destruct Hb as [Hb|[Hb _]]; [|congruence].
        destruct (IH st1) as (kb & kw & Hk & Hlen & Hw' & Hb' & Hrun).
        exists (S kb), (S kw). cbn [firstn flat_map fst snd List.length].
        rewrite Hw', Hb', Hw, Hb, <- !app_assoc.
        repeat split; try lia.
        destruct (relay_loop rest st1); [lia|exact I].
      * cbn [state_of]. destruct Hb as [Hb|[_ Hb]].
        -- exists 1%nat, 1%nat. cbn [firstn flat_map fst snd List.length].
           rewrite !app_nil_r. repeat split; try lia; assumption.
        -- exists 1%nat, 0%nat. cbn [firstn flat_map fst snd List.length].
           rewrite !app_nil_r. repeat split; try lia; assumption.
Qed.

(** X5: the moves reach the engines in order: white's engine is sent the
    greeting and then the move tokens of black's lines, black's engine the
    greeting, [go] and then the move tokens of white's lines, of the polls
    handled so far, all of them while the runner runs; nothing else is ever
    sent to an engine. *)
Theorem moves_forwarded_in_order (o : options)
  (polls : list (string * string)) :
  exists kb kw : nat,
    (kw <= kb <= kw + 1)%nat /\ (kb <= List.length polls)%nat /\
    sent IO_WHITE (state_of (relay_loop polls (start o))) =
      hello o :: flat_map (fun p => token_of (fst p)) (firstn kb polls) /\
    sent IO_BLACK (state_of (relay_loop polls (start o))) =
      hello o :: ("go" ++ nl) ::
        flat_map (fun p => token_of (snd p)) (firstn kw polls) /\
    match relay_loop polls (start o) with
    | Running _ => kb = List.length polls /\ kw = List.length polls
    | Exited _ _ => True
    end.
Proof.
  destruct (relay_loop_sent polls (start o))
    as (kb & kw & Hk & Hlen & Hw & Hb & Hrun).
  exists kb, kw. rewrite Hw, Hb.
  split; [exact Hk|]. split; [exact Hlen|].
  split; [reflexivity|]. split; [reflexivity|exact Hrun].
Qed.

End relay_order.

Section exit_status.

Local Open Scope string_scope.
Local Open Scope Z_scope.

Lemma parse_loop_exit_code (n : nat) :
  forall args o c,
    (List.length args <= n)%nat ->
    parse_loop args o = ArgsExit c -> c = 255.
Proof.
  induction n as [|n IH]; intros args o c Hlen Hp.
  - destruct args; [|cbn in Hlen; lia]. cbn in Hp. congruence.
  - destruct args as [|a rest]; [cbn in Hp; congruence|].
    cbn [List.length] in Hlen. cbn [parse_loop] in Hp.
    destruct (String.eqb "--black" a).
    { destruct rest as [|v rest']; [congruence|].
      cbn [List.length] in Hlen. eapply IH; [|exact Hp]. lia. }
    destruct (String.eqb "--white" a).
    { destruct rest as [|v rest']; [congruence|].
      cbn [List.length] in Hlen. eapply IH; [|exact Hp]. lia. }
    destruct (String.eqb "--depth" a).
    { destruct rest as [|v rest']; [congruence|].
      cbn [List.length] in Hlen. cbv zeta in Hp.
      destruct ((int_wrap (strtol v) <? 0) || (int_wrap (strtol v) >? 999)).
      - congruence.
      - eapply IH; [|exact Hp]. lia. }
    eapply IH; [|exact Hp]. lia.
Qed.

Lemma parse_args_exit_code (argv : list string) (c : Z) :
  parse_args argv = ArgsExit c -> c = 255.
Proof.
  unfold parse_args.
  destruct (parse_loop (tl argv) default_options) as [o|c'] eqn:E.
  - destruct (String.eqb (opt_black o) "" || String.eqb (opt_white o) "");
      congruence.
  - intros H. injection H as <-.
    exact (parse_loop_exit_code _ _ _ _ (le_n _) E).
Qed.

Lemma relay_ends_well (who : string) (c : channel) (move : string)
  (st : state) :
  ends_well
    (let st := put IO (who ++ move ++ nl) st in
     let st := put c (move ++ nl) st in
     let st := mk_state (int_add (moves st) 1) (written st) in
     if moves st >? moves_limit
     then Exited 0 (put IO ("RESULT 1/2-1/2 {Draw}" ++ nl) st)
     else Running st).
Proof.
  cbv zeta.
  match goal with |- context [if ?b then _ else _] => destruct b end.
  - cbn [ends_well]. left. split; [reflexivity|].
    exists "RESULT 1/2-1/2 {Draw}". split; [reflexivity|].
    apply last_written_put.
  - exact I.
Qed.

Lemma on_line_black_ends_well (line : string) (st : state) :
  ends_well (on_line_black line st).
Proof.
  unfold on_line_black. cbv zeta.
  destruct (Ascii.eqb (first_char line) "m").
  - destruct (substr line 5 4) as [move|].
    + exact (relay_ends_well "Black move " IO_WHITE move st).
    + right. reflexivity.
  - destruct (Ascii.eqb (first_char line) "R") eqn:R.
    + left. split; [reflexivity|]. exists line.
      apply Ascii.eqb_eq in R. split; [exact R|apply last_written_put].
    + destruct (Ascii.eqb (first_char line) "E"); [right; reflexivity|].
      destruct (Ascii.eqb (first_char line) " "); exact I.
Qed.

Lemma on_line_white_ends_well (line_black line : string) (st : state) :
  ends_well (on_line_white line_black line st).
Proof.
  unfold on_line_white. cbv zeta.
  destruct (Ascii.eqb (first_char line) "m").
  - destruct (substr line 5 4) as [move|].
    + exact (relay_ends_well "White move " IO_BLACK move st).
    + right. reflexivity.
  - destruct (Ascii.eqb (first_char line) "R") eqn:R.
    + left. split; [reflexivity|]. exists line.
      apply Ascii.eqb_eq in R. split; [exact R|apply last_written_put].
    + destruct (Ascii.eqb (first_char line) "E"); [right; reflexivity|].
      destruct (Ascii.eqb (first_char line) " ");
        [exact I|right; reflexivity].
Qed.

Lemma round_ends_well (lb lw : string) (st : state) :
  ends_well (round lb lw st).
Proof.
  unfold round.
  pose proof (on_line_black_ends_well lb st) as Hb.
  destruct (is_empty_line lb).
  - destruct (is_empty_line lw); [exact I|].
    apply on_line_white_ends_well.
  - destruct (on_line_black lb st) as [st1|c st1]; [|exact Hb].
    destruct (is_empty_line lw); [exact I|].
    apply on_line_white_ends_well.
Qed.

Lemma relay_loop_ends_well (polls : list (string * string)) :
  forall st, ends_well (relay_loop polls st).
Proof.
  induction polls as [|[lb lw] rest IH]; intros st; [exact I|].
  cbn [relay_loop].
  destruct (is_empty_line lb && is_empty_line lw); [apply IH|].
  pose proof (round_ends_well lb lw st) as H.
  destruct (round lb lw st) as [st1|c st1]; [apply IH|exact H].
Qed.

(** X6: the runner's exit status is 0 or 255, and 0 only when the last thing it
    printed is a line starting with [R]: an engine's result line or its own
    draw line. *)
Theorem exit_status (argv : list string) (polls : list (string * string))
  (c : Z) (st : state) :
  main argv polls = Exited c st ->
  c = 0 /\
  (exists line,
      first_char line = "R"%char /\
      last_written st = Some (IO, line ++ nl)) \/
  c = 255.
Proof.
  unfold main. intros H.
  destruct (parse_args argv) as [o|c'] eqn:E.
  - pose proof (relay_loop_ends_well polls (start o)) as W.
    rewrite H in W. exact W.
  - injection H as <- <-. right. exact (parse_args_exit_code _ _ E).
Qed.

Lemma exit_status_witness :
  main ["runer"; "--black"; "a"; "--white"; "b"]
    [("move 11-15", ""); ("", "RESULT 1-0")] =
    Exited 0
      (put IO ("RESULT 1-0" ++ nl)
         (put IO_WHITE ("11-1" ++ nl)
            (put IO ("Black move 11-1" ++ nl)
               (mk_state 1 (written (start (mk_options "a" "b" 1))))))) /\
  (0 = 0 /\
   (exists line,
       first_char line = "R"%char /\
       last_written
         (put IO ("RESULT 1-0" ++ nl)
            (put IO_WHITE ("11-1" ++ nl)
               (put IO ("Black move 11-1" ++ nl)
                  (mk_state 1 (written (start (mk_options "a" "b" 1)))))))
       = Some (IO, line ++ nl)) \/
   0 = 255).
Proof.
  split; [reflexivity|].
  exact (exit_status ["runer"; "--black"; "a"; "--white"; "b"]
           [("move 11-15", ""); ("", "RESULT 1-0")] 0 _ eq_refl).
Defined.

End exit_status.

Section polling.

Local Open Scope string_scope.
Local Open Scope Z_scope.

(** X11: polls that read nothing leave no trace: the runner does the same with
    and without them. *)
Theorem idle_polls_ignored (polls : list (string * string)) (st : state) :
  relay_loop (filter (fun p => negb (idle p)) polls) st =
  relay_loop polls st.
Proof.
  revert st. induction polls as [|[lb lw] rest IH]; intros st;
    [reflexivity|].
  cbn [filter relay_loop]. unfold idle at 1. cbn [fst snd].
  destruct (is_empty_line lb && is_empty_line lw) eqn:E; cbn [negb].
  - apply IH.
  - cbn [relay_loop]. rewrite E.
    destruct (round lb lw st); [apply IH|reflexivity].
Qed.

(** X10: white's own text is printed only for a move or a result: two white
    lines with the same first character, neither [m] nor [R], have the same
    effect, whatever else they say. *)
Theorem white_text_not_printed (line_black line line' : string)
  (st : state) :
  first_char line = first_char line' ->
  first_char line <> "m"%char -> first_char line <> "R"%char ->
  on_line_white line_black line st = on_line_white line_black line' st.
Proof.
  intros Hc Hm Hr. unfold on_line_white. cbv zeta. rewrite <- Hc.
  apply Ascii.eqb_neq in Hm. apply Ascii.eqb_neq in Hr.
  rewrite Hm, Hr. reflexivity.
Qed.

Lemma white_text_not_printed_witness :
  first_char "Error: out of memory" = first_char "E" /\
  on_line_white "move 11-15" "Error: out of memory" (mk_state 0 []) =
  on_line_white "move 11-15" "E" (mk_state 0 []).
Proof.
  split; [reflexivity|].
  apply (white_text_not_printed "move 11-15" "Error: out of memory" "E");
    [reflexivity|discriminate|discriminate].
Defined.

End polling.

Section draw_by_length.

Local Open Scope string_scope.
Local Open Scope Z_scope.

Lemma move_line_substr (line : string) :
  move_line line = true ->
  Ascii.eqb (first_char line) "m" = true /\
  exists move, substr line 5 4 = Some move.
Proof.
  unfold move_line, substr. intros H. apply andb_true_iff in H.
  destruct H as [H1 H2]. split; [exact H1|].
  rewrite H2. eexists. reflexivity.
Qed.

Lemma relay_after_move (who : string) (c : channel) (move : string)
  (st : state) :
  0 <= moves st <= moves_limit ->
  after_move
    (let st := put IO (who ++ move ++ nl) st in
     let st := put c (move ++ nl) st in
     let st := mk_state (int_add (moves st) 1) (written st) in
     if moves st >? moves_limit
     then Exited 0 (put IO ("RESULT 1/2-1/2 {Draw}" ++ nl) st)
     else Running st) st.
Proof.
  intros Hm. cbv zeta. cbn [moves written put].
  assert (Hadd : int_add (moves st) 1 = moves st + 1).
  { unfold int_add. apply int_wrap_small.
    unfold INT_MIN, INT_MAX, moves_limit in *. lia. }
  rewrite Hadd.
  destruct (moves st + 1 >? moves_limit) eqn:E.
  - rewrite Z.gtb_ltb in E. apply Z.ltb_lt in E. cbn [after_move moves put].
    split; [reflexivity|]. split; [lia|]. split; [lia|].
    exact (last_written_put IO _ (mk_state _ _)).
  - rewrite Z.gtb_ltb in E. apply Z.ltb_ge in E. cbn [after_move moves].
    lia.
Qed.

Lemma on_line_black_move (line : string) (st : state) :
  move_line line = true -> 0 <= moves st <= moves_limit ->
  after_move (on_line_black line st) st.
Proof.
  intros Hl Hm. destruct (move_line_substr line Hl) as [Hc [move Hs]].
  unfold on_line_black. cbv zeta. rewrite Hc, Hs.
  exact (relay_after_move "Black move " IO_WHITE move st Hm).
Qed.

Lemma on_line_white_move (line_black line : string) (st : state) :
  move_line line = true -> 0 <= moves st <= moves_limit ->
  after_move (on_line_white line_black line st) st.
Proof.
  intros Hl Hm. destruct (move_line_substr line Hl) as [Hc [move Hs]].
  unfold on_line_white. cbv zeta. rewrite Hc, Hs.
  exact (relay_after_move "White move " IO_BLACK move st Hm).
Qed.

Lemma lines_of_cons (lb lw : string) (rest : list (string * string)) :
  lines_of ((lb, lw) :: rest) =
  List.app (if is_empty_line lb then [] else [lb])
    (List.app (if is_empty_line lw then [] else [lw]) (lines_of rest)).
Proof.
  unfold lines_of. cbn [flat_map fst snd List.app filter].
  destruct (is_empty_line lb), (is_empty_line lw); reflexivity.
Qed.

Lemma relay_loop_draw (polls : list (string * string)) :
  forall st,
    forallb move_line (lines_of polls) = true ->
    0 <= moves st <= moves_limit ->
    moves_limit + 1 - moves st <= Z.of_nat (List.length (lines_of polls)) ->
    exists st',
      relay_loop polls st = Exited 0 st' /\
      moves st' = moves_limit + 1 /\
      last_written st' = Some (IO, draw_line).
Proof.
  induction polls as [|[lb lw] rest IH]; intros st Hall Hm Hlen;
    unfold moves_limit in *.
  - change (Z.of_nat (List.length (lines_of []))) with 0 in Hlen. lia.
  - rewrite lines_of_cons in Hall, Hlen. cbn [relay_loop]. unfold round.
    destruct (is_empty_line lb) eqn:Eb.
    + destruct (is_empty_line lw) eqn:Ew; cbn [andb List.app] in *.
      * apply IH; assumption.
      * cbn [forallb List.length] in Hall, Hlen.
        apply andb_true_iff in Hall. destruct Hall as [Hw Hall].
        pose proof (on_line_white_move lb lw st Hw Hm) as A.
        destruct (on_line_white lb lw st) as [st1|c st1];
          cbn [after_move] in A; unfold moves_limit in A.
        -- apply IH; [exact Hall|lia|lia].
        -- destruct A as (-> & A1 & A2 & A3). exists st1. auto.
    + cbn [andb List.app forallb List.length] in Hall, Hlen.
      apply andb_true_iff in Hall. destruct Hall as [Hb Hall].
      pose proof (on_line_black_move lb st Hb Hm) as A.
      destruct (on_line_black lb st) as [st1|c st1]; cbn [after_move] in A; unfold moves_limit in A.
      * destruct (is_empty_line lw) eqn:Ew; cbn [List.app] in *.
        -- apply IH; [exact Hall|lia|lia].
        -- cbn [forallb List.length] in Hall, Hlen.
           apply andb_true_iff in Hall. destruct Hall as [Hw Hall].
           pose proof (on_line_white_move lb lw st1 Hw ltac:(unfold moves_limit; lia)) as B.
           destruct (on_line_white lb lw st1) as [st2|c st2];
             cbn [after_move] in B; unfold moves_limit in B.
           ++ apply IH; [exact Hall|lia|lia].
           ++ destruct B as (-> & B1 & B2 & B3). exists st2. auto.
      * destruct A as (-> & A1 & A2 & A3). exists st1. auto.
Qed.

(** X7: three hundred move lines end the match: when every line the engines say
    is a move line of at least five characters and there are 300 of them or
    more, the runner prints the draw line and exits with 0. *)
Theorem enough_moves_draw (o : options) (polls : list (string * string)) :
  forallb move_line (lines_of polls) = true ->
  300 <= Z.of_nat (List.length (lines_of polls)) ->
  exists st,
    relay_loop polls (start o) = Exited 0 st /\
    moves st = 300 /\
    last_written st = Some (IO, draw_line).
Proof.
  intros Hall Hlen.
  apply (relay_loop_draw polls (start o) Hall).
  - cbn. unfold moves_limit. lia.
  - cbn [start moves put]. unfold moves_limit. lia.
Qed.

Lemma enough_moves_draw_witness :
  forallb move_line
    (lines_of (repeat ("move 11-15", "move 22-18") 150)) = true /\
  exists st,
    relay_loop (repeat ("move 11-15", "move 22-18") 150)
      (start default_options) = Exited 0 st /\
    moves st = 300 /\
    last_written st = Some (IO, draw_line).
Proof.
  assert (H : forallb move_line
    (lines_of (repeat ("move 11-15", "move 22-18") 150)) = true)
    by (vm_compute; reflexivity).
  split; [exact H|].
  apply (enough_moves_draw default_options _ H).
  vm_compute. discriminate.
Defined.

Lemma relay_loop_running (polls : list (string * string)) :
  forall st,
    forallb move_line (lines_of polls) = true ->
    0 <= moves st ->
    moves st + Z.of_nat (List.length (lines_of polls)) <= moves_limit ->
    exists st',
      relay_loop polls st = Running st' /\
      moves st' = moves st + Z.of_nat (List.length (lines_of polls)).
Proof.
  induction polls as [|[lb lw] rest IH]; intros st Hall Hm Hlen;
    unfold moves_limit in *.
  - exists st. split; [reflexivity|].
    change (Z.of_nat (List.length (lines_of []))) with 0. lia.
  - rewrite lines_of_cons in Hall, Hlen. rewrite lines_of_cons.
    cbn [relay_loop]. unfold round.
    destruct (is_empty_line lb) eqn:Eb.
    + destruct (is_empty_line lw) eqn:Ew; cbn [andb List.app] in *.
      * apply IH; assumption.
      * cbn [forallb List.length] in Hall, Hlen. cbn [List.length].
        apply andb_true_iff in Hall. destruct Hall as [Hw Hall].
        pose proof (on_line_white_move lb lw st Hw
                      ltac:(unfold moves_limit; lia)) as A.
        destruct (on_line_white lb lw st) as [st1|c st1];
          cbn [after_move] in A; unfold moves_limit in A; [|lia].
        destruct (IH st1 Hall ltac:(lia) ltac:(lia)) as (st' & R & M).
        exists st'. split; [exact R|lia].
    + cbn [andb List.app forallb List.length] in Hall, Hlen.
      cbn [List.app List.length].
      apply andb_true_iff in Hall. destruct Hall as [Hb Hall].
      pose proof (on_line_black_move lb st Hb
                    ltac:(unfold moves_limit; lia)) as A.
      destruct (on_line_black lb st) as [st1|c st1];
        cbn [after_move] in A; unfold moves_limit in A; [|lia].
      destruct (is_empty_line lw) eqn:Ew; cbn [List.app] in *.
      * destruct (IH st1 Hall ltac:(lia) ltac:(lia)) as (st' & R & M).
        exists st'. split; [exact R|lia].
      * cbn [forallb List.length] in Hall, Hlen. cbn [List.length].
        apply andb_true_iff in Hall. destruct Hall as [Hw Hall].
        pose proof (on_line_white_move lb lw st1 Hw
                      ltac:(unfold moves_limit; lia)) as B.
        destruct (on_line_white lb lw st1) as [st2|c st2];
          cbn [after_move] in B; unfold moves_limit in B; [|lia].
        destruct (IH st2 Hall ltac:(lia) ltac:(lia)) as (st' & R & M).
        exists st'. split; [exact R|lia].
Qed.

(** One move line, from either engine: below the limit the runner goes
    on, at the limit it ends the match. *)
Lemma move_line_below_limit (line line_black : string) (st : state) :
  move_line line = true -> 0 <= moves st < moves_limit ->
  (exists st', on_line_black line st = Running st' /\
               moves st' = moves st + 1) /\
  (exists st', on_line_white line_black line st = Running st' /\
               moves st' = moves st + 1).
Proof.
  intros Hl Hm.
  pose proof (on_line_black_move line st Hl ltac:(lia)) as A.
  pose proof (on_line_white_move line_black line st Hl ltac:(lia)) as B.
  split.
  - destruct (on_line_black line st) as [st'|c st']; cbn [after_move] in A.
    + exists st'. split; [reflexivity|apply A].
    + lia.
  - destruct (on_line_white line_black line st) as [st'|c st'];
      cbn [after_move] in B.
    + exists st'. split; [reflexivity|apply B].
    + lia.
Qed.

Lemma move_line_at_limit (line line_black : string) (st : state) :
  move_line line = true -> moves st = moves_limit ->
  (exists st', on_line_black line st = Exited 0 st' /\
               moves st' = moves_limit + 1 /\
               last_written st' = Some (IO, draw_line)) /\
  (exists st', on_line_white line_black line st = Exited 0 st' /\
               moves st' = moves_limit + 1 /\
               last_written st' = Some (IO, draw_line)).
Proof.
  intros Hl Hm.
  pose proof (on_line_black_move line st Hl
                ltac:(unfold moves_limit in *; lia)) as A.
  pose proof (on_line_white_move line_black line st Hl
                ltac:(unfold moves_limit in *; lia)) as B.
  split.
  - destruct (on_line_black line st) as [st'|c st']; cbn [after_move] in A.
    + lia.
    + destruct A as (-> & A1 & _ & A3). exists st'. auto.
  - destruct (on_line_white line_black line st) as [st'|c st'];
      cbn [after_move] in B.
    + lia.
    + destruct B as (-> & B1 & _ & B3). exists st'. auto.
Qed.

Lemma result_no_draw (g : game) (line : string) :
  engine.result g = Some line ->
  generate (position g) = [] /\
  (line = "RESULT 1-0 {White wins}" \/ line = "RESULT 0-1 {Black wins}") /\
  line ++ nl <> draw_line.
Proof.
  unfold engine.result.
  destruct (generate (position g)); [|discriminate].
  intros H. injection H as <-. split; [reflexivity|].
  destruct (side_to_move (position g)); split; auto; discriminate.
Qed.

Lemma result_goes_on (g : game) :
  generate (position g) <> [] -> engine.result g = None.
Proof.
  unfold engine.result. destruct (generate (position g)); congruence.
Qed.

(** C9: the runner caps the match at 299 relayed moves, and the core names
    a winner only.  The counter is the number of moves relayed, whatever the
    engines send; while the runner runs it is at most 299.  A move line that
    finds the counter below 299 is relayed and the runner goes on; one that
    finds it at 299 is relayed, the runner prints [RESULT 1/2-1/2 {Draw}]
    and exits with code 0.  So a match of move lines runs on while there are
    at most 299 of them and ends that way at the 300th.  The core's own
    result line is a win for one side, given only when the side to move has
    no move: no history, however long, ends a game there. *)
Theorem runner_caps_moves :
  moves_limit = 299 /\
  draw_line = "RESULT 1/2-1/2 {Draw}" ++ nl /\
  (forall o polls,
      match relay_loop polls (start o) with
      | Running st => relayed st = moves st /\ 0 <= moves st <= moves_limit
      | Exited code st =>
          relayed st = moves st /\ 0 <= moves st <= moves_limit + 1 /\
          (moves st > moves_limit ->
           code = 0 /\ last_written st = Some (IO, draw_line))
      end) /\
  (forall line line_black st,
      move_line line = true -> 0 <= moves st < moves_limit ->
      (exists st', on_line_black line st = Running st' /\
                   moves st' = moves st + 1) /\
      (exists st', on_line_white line_black line st = Running st' /\
                   moves st' = moves st + 1)) /\
  (forall line line_black st,
      move_line line = true -> moves st = moves_limit ->
      (exists st', on_line_black line st = Exited 0 st' /\
                   moves st' = moves_limit + 1 /\
                   last_written st' = Some (IO, draw_line)) /\
      (exists st', on_line_white line_black line st = Exited 0 st' /\
                   moves st' = moves_limit + 1 /\
                   last_written st' = Some (IO, draw_line))) /\
  (forall o polls,
      forallb move_line (lines_of polls) = true ->
      Z.of_nat (List.length (lines_of polls)) <= moves_limit ->
      exists st,
        relay_loop polls (start o) = Running st /\
        moves st = Z.of_nat (List.length (lines_of polls))) /\
  (forall o polls,
      forallb move_line (lines_of polls) = true ->
      moves_limit < Z.of_nat (List.length (lines_of polls)) ->
      exists st,
        relay_loop polls (start o) = Exited 0 st /\
        moves st = moves_limit + 1 /\
        last_written st = Some (IO, draw_line)) /\
  (forall g line,
      engine.result g = Some line ->
      generate (position g) = [] /\
      (line = "RESULT 1-0 {White wins}" \/
       line = "RESULT 0-1 {Black wins}") /\
      line ++ nl <> draw_line) /\
  (forall g, generate (position g) <> [] -> engine.result g = None).
Proof.
  split; [reflexivity|]. split; [reflexivity|].
  split; [intros o polls;
          exact (relay_loop_capped polls (start o) (start_counting o))|].
  split; [exact (fun line lb st => move_line_below_limit line lb st)|].
  split; [exact (fun line lb st => move_line_at_limit line lb st)|].
  split.
  { intros o polls Hall Hlen.
    destruct (relay_loop_running polls (start o) Hall) as (st & R & M).
    - cbn. lia.
    - cbn [start moves put]. lia.
    - exists st. split; [exact R|]. rewrite M. cbn [start moves put]. lia. }
  split.
  { intros o polls Hall Hlen.
    apply (relay_loop_draw polls (start o) Hall).
    - cbn. unfold moves_limit. lia.
    - cbn [start moves put]. lia. }
  split; [exact result_no_draw|exact result_goes_on].
Qed.

Lemma runner_caps_moves_witness :
  forallb move_line
    (lines_of (repeat ("move 11-15", "move 22-18") 150)) = true /\
  moves_limit <
    Z.of_nat
      (List.length (lines_of (repeat ("move 11-15", "move 22-18") 150))) /\
  exists st,
    relay_loop (repeat ("move 11-15", "move 22-18") 150)
      (start default_options) = Exited 0 st /\
    moves st = moves_limit + 1 /\
    last_written st = Some (IO, draw_line).
Proof.
  assert (H : forallb move_line
    (lines_of (repeat ("move 11-15", "move 22-18") 150)) = true)
    by (vm_compute; reflexivity).
  assert (L : moves_limit <
    Z.of_nat
      (List.length (lines_of (repeat ("move 11-15", "move 22-18") 150))))
    by (vm_compute; reflexivity).
  split; [exact H|]. split; [exact L|].
  exact (proj1 (proj2 (proj2 (proj2 (proj2 (proj2 (proj2
           runner_caps_moves))))))
           default_options _ H L).
Defined.

End draw_by_length.

Section depth_option.

Local Open Scope string_scope.
Local Open Scope Z_scope.

Lemma depth_text_round_trip :
  forallb
    (fun k => int_wrap (strtol (show_int (Z.of_nat k))) =? Z.of_nat k)
    (seq 0 1000) = true.
Proof. vm_compute. reflexivity. Qed.

Lemma depth_text_read_back (d : Z) :
  0 <= d <= 999 -> int_wrap (strtol (show_int d)) = d.
Proof.
  intros H. pose proof depth_text_round_trip as A.
  rewrite forallb_forall in A.
  specialize (A (Z.to_nat d)).
  rewrite Z2Nat.id in A by lia. apply Z.eqb_eq, A.
  apply in_seq. lia.
Qed.

Lemma parse_depth_accepts (v : string) (rest : list string) (o : options) :
  0 <= int_wrap (strtol v) <= 999 ->
  parse_loop ("--depth" :: v :: rest) o =
  parse_loop rest
    (mk_options (opt_black o) (opt_white o) (int_wrap (strtol v))).
Proof.
  intros H. cbn [parse_loop]. cbn [String.eqb Ascii.eqb Bool.eqb].
  cbv zeta.
  destruct ((int_wrap (strtol v) <? 0) || (int_wrap (strtol v) >? 999))
    eqn:E; [|reflexivity].
  exfalso. apply orb_true_iff in E. destruct E as [E|E].
  - apply Z.ltb_lt in E. lia.
  - rewrite Z.gtb_ltb in E. apply Z.ltb_lt in E. lia.
Qed.

(** X8: every depth from 0 to 999, written in decimal after [--depth], is
    accepted and is the depth both engines are told: each is sent
    [st 999] and [sd] with that depth before black's engine is told
    [go]. *)
Theorem depth_passed_on (black white : string) (d : Z)
  (polls : list (string * string)) :
  0 <= d <= 999 -> black <> "" -> white <> "" ->
  parse_args
    ["runer"; "--black"; black; "--white"; white; "--depth"; show_int d] =
    Args (mk_options black white d) /\
  main ["runer"; "--black"; black; "--white"; white; "--depth"; show_int d]
    polls = relay_loop polls (start (mk_options black white d)) /\
  written (start (mk_options black white d)) =
    [(IO_BLACK, "st 999" ++ nl ++ "sd " ++ show_int d ++ nl);
     (IO_WHITE, "st 999" ++ nl ++ "sd " ++ show_int d ++ nl);
     (IO_BLACK, "go" ++ nl)].
Proof.
  intros Hd Hb Hw.
  assert (P : parse_args
    ["runer"; "--black"; black; "--white"; white; "--depth"; show_int d] =
    Args (mk_options black white d)).
  { unfold parse_args. cbn [tl].
    replace (parse_loop
               ["--black"; black; "--white"; white; "--depth"; show_int d]
               default_options)
      with (parse_loop ["--depth"; show_int d] (mk_options black white 1))
      by reflexivity.
    rewrite parse_depth_accepts
      by (rewrite depth_text_read_back by exact Hd; exact Hd).
    rewrite depth_text_read_back by exact Hd.
    cbn [parse_loop opt_black opt_white].
    apply String.eqb_neq in Hb. apply String.eqb_neq in Hw.
    rewrite Hb, Hw. reflexivity. }
  split; [exact P|]. split; [|reflexivity].
  unfold main. rewrite P. reflexivity.
Qed.

Lemma depth_passed_on_witness :
  0 <= 7 <= 999 /\
  main ["runer"; "--black"; "a"; "--white"; "b"; "--depth"; "7"] [] =
    Running (start (mk_options "a" "b" 7)).
Proof.
  split; [lia|].
  exact (proj1 (proj2 (depth_passed_on "a" "b" 7 [] ltac:(lia)
                         ltac:(discriminate) ltac:(discriminate)))).
Defined.

Lemma parse_loop_no_depth (n : nat) :
  forall args o,
    (List.length args <= n)%nat ->
    ~ In "--depth" args ->
    exists o', parse_loop args o = Args o' /\ opt_depth o' = opt_depth o.
Proof.
  induction n as [|n IH]; intros args o Hlen Hin.
  - destruct args; [|cbn in Hlen; lia]. exists o. split; reflexivity.
  - destruct args as [|a rest]; [exists o; split; reflexivity|].
    cbn [List.length] in Hlen. cbn [parse_loop].
    assert (Ha : String.eqb "--depth" a = false).
    { apply String.eqb_neq. intros <-. apply Hin. apply in_eq. }
    assert (Hrest : ~ In "--depth" rest)
      by (intros H; apply Hin; apply in_cons; exact H).
    destruct (String.eqb "--black" a).
    { destruct rest as [|v rest']; [exists o; split; reflexivity|].
      cbn [List.length] in Hlen.
      destruct (IH rest' (mk_options v (opt_white o) (opt_depth o)))
        as (o' & H1 & H2);
        [lia|intros H; apply Hrest; apply in_cons; exact H|].
      exists o'. split; [exact H1|exact H2]. }
    destruct (String.eqb "--white" a).
    { destruct rest as [|v rest']; [exists o; split; reflexivity|].
      cbn [List.length] in Hlen.
      destruct (IH rest' (mk_options (opt_black o) v (opt_depth o)))
        as (o' & H1 & H2);
        [lia|intros H; apply Hrest; apply in_cons; exact H|].
      exists o'. split; [exact H1|exact H2]. }
    rewrite Ha. apply IH; [lia|exact Hrest].
Qed.

(** X9: without [--depth] among the arguments the runner plays at depth 1, and
    the only way it ends before starting the engines is a missing
    [--black] or [--white] program. *)
Theorem default_depth (argv : list string) :
  ~ In "--depth" argv ->
  (forall o, parse_args argv = Args o -> opt_depth o = 1) /\
  (forall c, parse_args argv = ArgsExit c ->
     exists o,
       parse_loop (tl argv) default_options = Args o /\
       (opt_black o = "" \/ opt_white o = "")).
Proof.
  intros Hin.
  assert (Htl : ~ In "--depth" (tl argv)).
  { destruct argv as [|a rest]; [exact Hin|].
    intros H. apply Hin. apply in_cons. exact H. }
  destruct (parse_loop_no_depth _ (tl argv) default_options (le_n _) Htl)
    as (o' & H1 & H2).
  unfold parse_args. rewrite H1.
  destruct (String.eqb (opt_black o') "") eqn:Eb; cbn [orb].
  - split; [discriminate|]. intros c _. exists o'.
    apply String.eqb_eq in Eb. auto.
  - destruct (String.eqb (opt_white o') "") eqn:Ew.
    + split; [discriminate|]. intros c _. exists o'.
      apply String.eqb_eq in Ew. auto.
    + split; [|discriminate]. intros o H. injection H as <-. exact H2.
Qed.

Lemma default_depth_witness :
  ~ In "--depth" ["runer"; "--white"; "w"; "--black"; "b"] /\
  parse_args ["runer"; "--white"; "w"; "--black"; "b"] =
    Args (mk_options "b" "w" 1) /\
  opt_depth (mk_options "b" "w" 1) = 1.
Proof.
  assert (H : ~ In "--depth" ["runer"; "--white"; "w"; "--black"; "b"]).
  { cbn. intros [H|[H|[H|[H|[H|[]]]]]]; discriminate. }
  split; [exact H|]. split; [reflexivity|].
  exact (proj1 (default_depth _ H) _ eq_refl).
Defined.

End depth_option.

Section depth_text.

Local Open Scope string_scope.
Local Open Scope Z_scope.

Lemma digits_value_no_digit (s : string) (a : Z) :
  starts_with_digit s = false -> digits_value s a = a.
Proof.
  destruct s as [|c r]; [reflexivity|]. cbn.
  destruct (digit_of c); [discriminate|reflexivity].
Qed.

Lemma strtol_no_number (v : string) : no_number v = true -> strtol v = 0.
Proof.
  unfold no_number, strtol. cbv zeta.
  destruct (skip_space v) as [|c r]; [reflexivity|].
  destruct (Ascii.eqb c "-") eqn:Em; cbn [orb].
  - apply Ascii.eqb_eq in Em. subst c. intros H.
    apply negb_true_iff in H. rewrite (digits_value_no_digit r 0 H).
    reflexivity.
  - destruct (Ascii.eqb c "+") eqn:Ep.
    + apply Ascii.eqb_eq in Ep. subst c. intros H.
      apply negb_true_iff in H. rewrite (digits_value_no_digit r 0 H).
      reflexivity.
    + intros H. apply negb_true_iff in H.
      apply Ascii.eqb_neq in Em. apply Ascii.eqb_neq in Ep.
      assert (Hc : match String c r with
                   | String "-"%char r' => - digits_value r' 0
                   | String "+"%char r' => digits_value r' 0
                   | _ => digits_value (String c r) 0
                   end = digits_value (String c r) 0).
      { destruct c as [[] [] [] [] [] [] [] []]; try reflexivity;
          congruence. }
      rewrite Hc, (digits_value_no_digit (String c r) 0 H). reflexivity.
Qed.

(** X12: the runner does not check that the text after [--depth] is a
    number: a text [strtol] finds no number in is taken as depth 0, which is
    accepted. *)
Theorem depth_text_not_checked (v : string) :
  no_number v = true ->
  (forall rest o,
      parse_loop ("--depth" :: v :: rest) o =
      parse_loop rest (mk_options (opt_black o) (opt_white o) 0)) /\
  (forall black white polls,
      black <> "" -> white <> "" ->
      main ["runer"; "--black"; black; "--white"; white; "--depth"; v]
        polls = relay_loop polls (start (mk_options black white 0))).
Proof.
  intros H.
  assert (P : forall rest o,
      parse_loop ("--depth" :: v :: rest) o =
      parse_loop rest (mk_options (opt_black o) (opt_white o) 0)).
  { intros rest o. cbn [parse_loop]. cbn [String.eqb Ascii.eqb Bool.eqb].
    cbv zeta. rewrite (strtol_no_number v H). reflexivity. }
  split; [exact P|].
  intros bl wh polls Hb Hw. unfold main, parse_args. cbn [tl].
  replace (parse_loop ["--black"; bl; "--white"; wh; "--depth"; v]
             default_options)
    with (parse_loop ["--depth"; v] (mk_options bl wh 1))
    by reflexivity.
  rewrite P. cbn [parse_loop opt_black opt_white].
  apply String.eqb_neq in Hb. apply String.eqb_neq in Hw.
  rewrite Hb, Hw. reflexivity.
Qed.

Lemma depth_text_not_checked_witness :
  no_number "deep" = true /\
  main ["runer"; "--black"; "a"; "--white"; "b"; "--depth"; "deep"] [] =
    Running (start (mk_options "a" "b" 0)).
Proof.
  split; [reflexivity|].
  exact (proj2 (depth_text_not_checked "deep" eq_refl) "a" "b" []
           ltac:(discriminate) ltac:(discriminate)).
Defined.

End depth_text.
